(** * The jsktoolbox logs subsystem: queue, client, engine and processor

    A shallow embedding of [jsktoolbox/libs/base_logs.py] and
    [jsktoolbox/logstool/logs.py].  Python objects that are shared by
    reference (the [LoggerQueue] held by both a [LoggerClient] and a
    [LoggerEngine]) live in a store; every operation is a computation
    that takes the store and returns an outcome together with the store
    it leaves behind, so that what an operation leaves unchanged when it
    raises is a theorem and not a convention. *)

From Stdlib Require Import ZArith String Ascii List Lia.
From stdpp Require Import base tactics option list strings pretty gmap.

Local Open Scope string_scope.

(** ** Python values and exceptions *)

Module Py.

(** The exception classes raised by the modelled code; [OtherError]
    stands for any class a sink may raise ([OSError] and the like). *)
Inductive exc : Type :=
| TypeError
| KeyError
| ValueError
| AttributeError
| IndexError
| OtherError (name : string).

(** What evaluating an expression gives: a value, or an exception. *)
Inductive outcome (A : Type) : Type :=
| Ok (a : A)
| Raise (e : exc).
Arguments Ok {A} a.
Arguments Raise {A} e.

(** The elements of a list argument. *)
Inductive scalar : Type :=
| SNone
| SBool (b : bool)
| SInt (z : Z)
| SStr (s : string).

(** The values that reach the logging calls as arguments.  A [string]
    stands for the Python [str] with the same characters, one [ascii]
    per character, so the strings of the model are those whose
    characters lie below U+0100; lists are lists of scalars. *)
Inductive value : Type :=
| PyNone
| PyBool (b : bool)
| PyInt (z : Z)
| PyStr (s : string)
| PyList (l : list scalar).

(** [isinstance(v, str)] *)
Definition is_str (v : value) : bool :=
  match v with PyStr _ => true | _ => false end.

(** Truth value of an object, as tested by [if v:]. *)
Definition truthy (v : value) : bool :=
  match v with
  | PyNone => false
  | PyBool b => b
  | PyInt z => negb (z =? 0)%Z
  | PyStr s => negb (String.eqb s EmptyString)
  | PyList l => match l with [] => false | _ => true end
  end.

(** [v is not None] *)
Definition is_not_none (v : value) : bool :=
  match v with PyNone => false | _ => true end.

Definition quote1 : ascii := "'"%char.
Definition quote2 : ascii := ascii_of_nat 34.
Definition backslash : ascii := ascii_of_nat 92.

Fixpoint contains (c : ascii) (s : string) : bool :=
  match s with
  | EmptyString => false
  | String d s' => if Ascii.eqb c d then true else contains c s'
  end.

Definition hex_digit (n : nat) : ascii :=
  match String.get n "0123456789abcdef" with
  | Some c => c
  | None => "0"%char
  end.

(** [c.isprintable()] for a character below U+0100: the controls
    (below U+0020 and U+007F to U+009F), the no-break space U+00A0 and
    the soft hyphen U+00AD are not printable. *)
Definition printable (n : nat) : bool :=
  negb (Nat.ltb n 32 || (Nat.leb 127 n && Nat.leb n 160) || Nat.eqb n 173).

(** One character of [repr(s)] for a string delimited by [q]. *)
Definition repr_char (q c : ascii) : string :=
  let n := nat_of_ascii c in
  if Ascii.eqb c q || Ascii.eqb c backslash then String backslash (String c EmptyString)
  else if Nat.eqb n 9 then String backslash "t"
  else if Nat.eqb n 10 then String backslash "n"
  else if Nat.eqb n 13 then String backslash "r"
  else if negb (printable n) then
    String backslash (String "x" (String (hex_digit (n / 16)) (String (hex_digit (n mod 16)) EmptyString)))
  else String c EmptyString.

Fixpoint repr_chars (q : ascii) (s : string) : string :=
  match s with
  | EmptyString => EmptyString
  | String c s' => repr_char q c ++ repr_chars q s'
  end.

(** [repr(s)] of a string: single quotes unless the text holds a
    single quote and no double quote. *)
Definition repr_str (s : string) : string :=
  let q := if contains quote1 s && negb (contains quote2 s) then quote2 else quote1 in
  String q (repr_chars q s ++ String q EmptyString).

(** The default of [sys.get_int_max_str_digits()]. *)
Definition int_max_str_digits : nat := 4300.

(** [str(z)] of an integer: [ValueError] when it has more decimal
    digits than the limit. *)
Definition int_str (z : Z) : outcome string :=
  if Nat.ltb int_max_str_digits (String.length (pretty (Z.abs_N z)))
  then Raise ValueError
  else Ok (pretty z).

(** [repr(x)] of a list element. *)
Definition repr_scalar (x : scalar) : outcome string :=
  match x with
  | SNone => Ok "None"
  | SBool true => Ok "True"
  | SBool false => Ok "False"
  | SInt z => int_str z
  | SStr s => Ok (repr_str s)
  end.

(** The elements' [repr], joined by [", "]; the first element that
    cannot be rendered raises. *)
Fixpoint repr_items (l : list scalar) : outcome string :=
  match l with
  | [] => Ok EmptyString
  | x :: l' =>
      match repr_scalar x with
      | Raise e => Raise e
      | Ok r =>
          match l' with
          | [] => Ok r
          | _ =>
              match repr_items l' with
              | Raise e => Raise e
              | Ok rest => Ok (r ++ ", " ++ rest)
              end
          end
      end
  end.

(** [str(v)], which is what [f"{v}"] evaluates to. *)
Definition str (v : value) : outcome string :=
  match v with
  | PyNone => Ok "None"
  | PyBool true => Ok "True"
  | PyBool false => Ok "False"
  | PyInt z => int_str z
  | PyStr s => Ok s
  | PyList l =>
      match repr_items l with
      | Raise e => Raise e
      | Ok r => Ok ("[" ++ r ++ "]")
      end
  end.

End Py.

Import Py.

(** ** Computations over a store *)

(** Modelled from the spec: the sink classes of
    [jsktoolbox.logstool.engines] ([ILoggerEngine] and its
    implementations [LoggerEngineStdout], [LoggerEngineStderr], ...) are
    not part of the sources at hand.  A sink is "anything exposing
    [send(text)] with no result", whose [send] may fail, the failure
    propagating to the caller.  The model keeps what the dispatcher
    observes of a sink: its concrete class and its identity.  Whether a
    given call of [send] returns or raises is decided by the world
    outside the program, which the store carries as [sink_error]. *)
Record ILoggerEngine : Type := Sink { eng_class : string; eng_id : nat }.

#[global] Instance ILoggerEngine_eq_dec : EqDecision ILoggerEngine.
Proof. solve_decision. Defined.

(** A queue entry: the pair [log_level, message] appended by [put]. *)
Definition item : Type := string * value.

(** The store: the private list of every [LoggerQueue] object, the
    counter from which object identities are drawn, the calls
    [engine.send(message)] that have returned so far, oldest first, the
    number of such calls attempted, and the world's answer to the
    [k]-th attempt: [None] when the call returns, the exception
    otherwise. *)
Record store : Type := Store {
  queues : gmap nat (list item);
  next : nat;
  output : list (ILoggerEngine * value);
  attempts : nat;
  sink_error : nat → ILoggerEngine → value → option exc
}.

Definition contents (q : nat) (s : store) : list item :=
  default [] (queues s !! q).

Definition set_contents (q : nat) (l : list item) (s : store) : store :=
  {| queues := <[q := l]> (queues s); next := next s; output := output s;
     attempts := attempts s; sink_error := sink_error s |}.

Definition M (A : Type) : Type := store -> outcome A * store.

Definition ret {A} (a : A) : M A := fun s => (Ok a, s).

Definition raise {A} (e : exc) : M A := fun s => (Raise e, s).

Definition bind {A B} (m : M A) (k : A -> M B) : M B :=
  fun s => match m s with
           | (Ok a, s') => k a s'
           | (Raise e, s') => (Raise e, s')
           end.

(** The outcome of an expression that does not touch the store. *)
Definition lift {A} (r : outcome A) : M A := fun s => (r, s).

Notation "x <~ m ;; k" := (bind m (fun x => k))
  (at level 100, m at next level, right associativity).
Notation "m ;;; k" := (bind m (fun _ => k))
  (at level 100, right associativity).

(** [engine.send(message)] : one more attempt; the call is recorded
    when it returns. *)
Definition emit (e : ILoggerEngine) (message : value) : M unit :=
  fun s =>
    match sink_error s (attempts s) e message with
    | Some err =>
        (Raise err,
         {| queues := queues s; next := next s; output := output s;
            attempts := S (attempts s); sink_error := sink_error s |})
    | None =>
        (Ok tt,
         {| queues := queues s; next := next s;
            output := output s ++ [(e, message)];
            attempts := S (attempts s); sink_error := sink_error s |})
    end.

(** [object()] : a fresh identity. *)
Definition fresh : M nat :=
  fun s => (Ok (next s),
            {| queues := queues s; next := S (next s); output := output s;
               attempts := attempts s; sink_error := sink_error s |}).

(** ** base_logs.LogsLevelKeys *)

Module LogsLevelKeys.

Definition ALERT : string := "ALERT".
Definition CRITICAL : string := "CRITICAL".
Definition DEBUG : string := "DEBUG".
Definition EMERGENCY : string := "EMERGENCY".
Definition ERROR : string := "ERROR".
Definition INFO : string := "INFO".
Definition NOTICE : string := "NOTICE".
Definition WARNING : string := "WARNING".

Definition keys : list string :=
  [ALERT; CRITICAL; DEBUG; EMERGENCY; ERROR; INFO; NOTICE; WARNING].

(** [v in LogsLevelKeys.keys] for an arbitrary object [v]: only a
    string compares equal to a member of the tuple. *)
Definition contains (v : value) : bool :=
  match v with
  | PyStr s => bool_decide (s ∈ keys)
  | _ => false
  end.

End LogsLevelKeys.

(** ** base_logs.LoggerQueue *)

Module LoggerQueue.

(** [LoggerQueue()] : a new object whose list is empty. *)
Definition init : M nat :=
  q <~ fresh ;;
  fun s => (Ok q, set_contents q [] s).

(** [get] : [pop(0)] of the list, [None] when it is empty. *)
Definition get (q : nat) : M (option item) :=
  fun s => match contents q s with
           | [] => (Ok None, s)
           | it :: rest => (Ok (Some it), set_contents q rest s)
           end.

(** [put] : validates the level, then appends [[log_level, message]].
    The error message of the [KeyError] holds [f"{log_level}"], which is
    evaluated first and may itself raise.  ([Raise.error], whose module
    is not among the sources, is taken to build the exception of the
    class it is given.) *)
Definition put (q : nat) (message : value) (log_level : value) : M unit :=
  if negb (LogsLevelKeys.contains log_level) then
    _ <~ lift (Py.str log_level) ;; raise KeyError
  else
    match log_level with
    | PyStr lvl => fun s => (Ok tt, set_contents q (contents q s ++ [(lvl, message)]) s)
    | _ => raise KeyError
    end.

End LoggerQueue.

(** ** logs.LoggerClient *)

(** The client's [_data] dictionary: [Keys.NAME] and [Keys.QUEUE] (the
    latter absent until a queue is assigned). *)
Record LoggerClient : Type := Client {
  lc_name : value;
  logs_queue : option nat
}.

Module LoggerClient.

(** The [name] setter. *)
Definition set_name (c : LoggerClient) (name : value) : outcome LoggerClient :=
  if truthy name && negb (is_str name) then Raise TypeError
  else Ok {| lc_name := name; logs_queue := logs_queue c |}.

(** The [logs_queue] setter of [BLoggerQueue]; its argument is a
    [LoggerQueue] object by typing. *)
Definition set_logs_queue (c : LoggerClient) (q : nat) : LoggerClient :=
  {| lc_name := lc_name c; logs_queue := Some q |}.

(** [LoggerClient(queue, name)] *)
Definition init (queue : option nat) (name : value) : outcome LoggerClient :=
  match set_name {| lc_name := PyNone; logs_queue := None |} name with
  | Raise e => Raise e
  | Ok c =>
      match queue with
      | Some q => Ok (set_logs_queue c q)
      | None => Ok c
      end
  end.

(** [message(message, log_level)]; the two error messages hold
    [type(log_level)] and a string, whose rendering cannot fail. *)
Definition message (c : LoggerClient) (message log_level : value) : M unit :=
  if negb (is_str log_level) then raise TypeError
  else if negb (LogsLevelKeys.contains log_level) then raise KeyError
  else
    message <~ (if negb (is_str message)
                then t <~ lift (Py.str message) ;; ret (PyStr t)
                else ret message) ;;
    message <~ (if is_not_none (lc_name c)
                then n <~ lift (Py.str (lc_name c)) ;;
                     t <~ lift (Py.str message) ;;
                     ret (PyStr ("[" ++ n ++ "] " ++ t))
                else ret message) ;;
    match logs_queue c with
    | None => raise AttributeError
    | Some q => LoggerQueue.put q message log_level
    end.

Definition message_alert (c : LoggerClient) (m : value) : M unit :=
  message c m (PyStr LogsLevelKeys.ALERT).
Definition message_critical (c : LoggerClient) (m : value) : M unit :=
  message c m (PyStr LogsLevelKeys.CRITICAL).
Definition message_debug (c : LoggerClient) (m : value) : M unit :=
  message c m (PyStr LogsLevelKeys.DEBUG).
Definition message_emergency (c : LoggerClient) (m : value) : M unit :=
  message c m (PyStr LogsLevelKeys.EMERGENCY).
Definition message_error (c : LoggerClient) (m : value) : M unit :=
  message c m (PyStr LogsLevelKeys.ERROR).
Definition message_info (c : LoggerClient) (m : value) : M unit :=
  message c m (PyStr LogsLevelKeys.INFO).
Definition message_notice (c : LoggerClient) (m : value) : M unit :=
  message c m (PyStr LogsLevelKeys.NOTICE).
Definition message_warning (c : LoggerClient) (m : value) : M unit :=
  message c m (PyStr LogsLevelKeys.WARNING).

End LoggerClient.

(** ** logs.LoggerEngine *)

(** The engine's [_data] dictionary: [Keys.QUEUE], the default table
    [Keys.NO_CONF] and the custom table [Keys.CONF], which is absent
    until the first [add_engine]. *)
Record LoggerEngine : Type := Engine {
  le_queue : nat;
  no_conf : gmap string (list ILoggerEngine);
  conf : option (gmap string (list ILoggerEngine))
}.

Module LoggerEngine.

Definition LoggerEngineStdout : M ILoggerEngine :=
  i <~ fresh ;; ret {| eng_class := "LoggerEngineStdout"; eng_id := i |}.

Definition LoggerEngineStderr : M ILoggerEngine :=
  i <~ fresh ;; ret {| eng_class := "LoggerEngineStderr"; eng_id := i |}.

(** [LoggerEngine()] *)
Definition init : M LoggerEngine :=
  q <~ LoggerQueue.init ;;
  o1 <~ LoggerEngineStdout ;;
  let t := <[LogsLevelKeys.INFO := [o1]]> ∅ in
  o2 <~ LoggerEngineStdout ;;
  let t := <[LogsLevelKeys.WARNING := [o2]]> t in
  o3 <~ LoggerEngineStdout ;;
  let t := <[LogsLevelKeys.NOTICE := [o3]]> t in
  e4 <~ LoggerEngineStderr ;;
  let t := <[LogsLevelKeys.DEBUG := [e4]]> t in
  o5 <~ LoggerEngineStdout ;;
  e5 <~ LoggerEngineStderr ;;
  let t := <[LogsLevelKeys.ERROR := [o5; e5]]> t in
  o6 <~ LoggerEngineStdout ;;
  e6 <~ LoggerEngineStderr ;;
  let t := <[LogsLevelKeys.CRITICAL := [o6; e6]]> t in
  ret {| le_queue := q; no_conf := t; conf := None |}.

(** One turn of the loop [for i in range(0, len(l))] of [add_engine],
    on the pair of the list and the flag [test]. *)
Definition replace_at (engine : ILoggerEngine)
    (st : list ILoggerEngine * bool) (i : nat) : list ILoggerEngine * bool :=
  match st.1 !! i with
  | Some x =>
      if decide (eng_class x = eng_class engine)
      then (<[i := engine]> st.1, true)
      else st
  | None => st
  end.

Definition replace_loop (engine : ILoggerEngine) (l : list ILoggerEngine)
    : list ILoggerEngine * bool :=
  foldl (replace_at engine) (l, false) (seq 0 (length l)).

(** [add_engine(log_level, engine)]; [engine] is an [ILoggerEngine] by
    typing.  Returns the outcome and the engine as the call leaves it. *)
Definition add_engine (e : LoggerEngine) (log_level : value) (engine : ILoggerEngine)
    : outcome unit * LoggerEngine :=
  match log_level with
  | PyStr lvl =>
      match conf e with
      | None =>
          (Ok tt, {| le_queue := le_queue e; no_conf := no_conf e;
                     conf := Some (<[lvl := [engine]]> ∅) |})
      | Some c =>
          match c !! lvl with
          | None =>
              (Ok tt, {| le_queue := le_queue e; no_conf := no_conf e;
                         conf := Some (<[lvl := [engine]]> c) |})
          | Some l =>
              let '(l', test) := replace_loop engine l in
              let l'' := if negb test then (l' ++ [engine])%list else l' in
              (Ok tt, {| le_queue := le_queue e; no_conf := no_conf e;
                         conf := Some (<[lvl := l'']> c) |})
          end
      end
  | _ => (Raise TypeError, e)
  end.

(** [for item in engines: item.send(message)]; a call that raises
    ends the loop. *)
Fixpoint send_all (engines : list ILoggerEngine) (message : value) : M unit :=
  match engines with
  | [] => ret tt
  | engine :: rest => emit engine message ;;; send_all rest message
  end.

(** The body of the loop of [send] once an item has been taken. *)
Definition dispatch (e : LoggerEngine) (log_level : string) (message : value) : M unit :=
  match conf e with
  | Some c =>
      if bool_decide (0 < size c) then
        match c !! log_level with
        | Some engines => send_all engines message
        | None => ret tt
        end
      else
        match no_conf e !! log_level with
        | Some engines => send_all engines message
        | None => ret tt
        end
  | None =>
      match no_conf e !! log_level with
      | Some engines => send_all engines message
      | None => ret tt
      end
  end.

(** The loop [while True] of [send], unfolded at most [n] times. *)
Fixpoint send_loop (e : LoggerEngine) (n : nat) : M unit :=
  match n with
  | O => ret tt
  | S n' =>
      it <~ LoggerQueue.get (le_queue e) ;;
      match it with
      | None => ret tt
      | Some (log_level, message) =>
          dispatch e log_level message ;;; send_loop e n'
      end
  end.

(** [send()] : every turn of the loop removes an entry, so the loop
    leaves through [return] within one turn more than the queue holds
    (see [send_loop_drains]). *)
Definition send (e : LoggerEngine) : M unit :=
  fun s => send_loop e (S (length (contents (le_queue e) s))) s.

End LoggerEngine.

(** ** logs.ThLoggerProcessor *)

(** Where the thread that executes [run] stands. *)
Inductive point : Type :=
| Idle                  (* constructed, [run] not entered *)
| AtTest                (* [while not self.stopped] *)
| AtSend                (* [self.logger_engine.send()] in the loop *)
| AtSleep               (* [time.sleep(self.sleep_period)] *)
| AtLeave               (* past the loop, before the debug message *)
| AtFlush               (* [self.logger_engine.send()] after the loop *)
| Returned
| Failed (e : exc).

(** The calls [run] has made, as a record of its progress. *)
Inductive call : Type :=
| LoopSend
| Sleep
| FinalSend.

#[global] Instance call_eq_dec : EqDecision call.
Proof. solve_decision. Defined.

(** The processor: its [_data] dictionary ([_Keys.LEO], [_Keys.LCO]),
    [_debug], the stop event, and the progress of [run]. *)
Record ThLoggerProcessor : Type := Processor {
  logger_engine : option LoggerEngine;
  logger_client : option LoggerClient;
  debug : bool;
  stopped : bool;
  at_point : point;
  calls : list call
}.

(** What other threads do between two statements of [run]. *)
Inductive event : Type :=
| Step                                               (* [run] executes its next statement *)
| CallStop                                           (* [stop()] *)
| CallMessage (c : LoggerClient) (m lvl : value)     (* [c.message(m, lvl)] on some client *)
| CallAddEngine (lvl : value) (engine : ILoggerEngine). (* [add_engine] on the processor's engine *)

Module ThLoggerProcessor.

Section Run.

(** The class name that [_c_name] of the base class yields; the base
    class is outside the sources at hand, so the name is a parameter. *)
Variable c_name : string.

(** [ThLoggerProcessor(debug)] *)
Definition init (dbg : bool) : ThLoggerProcessor :=
  {| logger_engine := None; logger_client := None; debug := dbg;
     stopped := false; at_point := Idle; calls := [] |}.

(** The [logger_engine] setter; its argument is a [LoggerEngine] by typing. *)
Definition set_logger_engine (th : ThLoggerProcessor) (obj : LoggerEngine) : ThLoggerProcessor :=
  {| logger_engine := Some obj;
     logger_client :=
       match logger_client th with
       | Some c => Some (LoggerClient.set_logs_queue c (le_queue obj))
       | None => None
       end;
     debug := debug th; stopped := stopped th;
     at_point := at_point th; calls := calls th |}.

(** The [logger_client] setter; its argument is a [LoggerClient] by typing. *)
Definition set_logger_client (th : ThLoggerProcessor) (obj : LoggerClient) : ThLoggerProcessor :=
  {| logger_engine := logger_engine th;
     logger_client :=
       match logger_engine th, logs_queue obj with
       | Some e, None => Some (LoggerClient.set_logs_queue obj (le_queue e))
       | _, _ => Some obj
       end;
     debug := debug th; stopped := stopped th;
     at_point := at_point th; calls := calls th |}.

Definition goto (th : ThLoggerProcessor) (p : point) (cs : list call) : ThLoggerProcessor :=
  {| logger_engine := logger_engine th; logger_client := logger_client th;
     debug := debug th; stopped := stopped th;
     at_point := p; calls := (calls th ++ cs)%list |}.

(** [self.logger_client.message_debug = text] *)
Definition debug_message (th : ThLoggerProcessor) (text : string) : M unit :=
  match logger_client th with
  | Some c => LoggerClient.message_debug c (PyStr text)
  | None => raise AttributeError
  end.

(** [self.logger_engine.send()] *)
Definition engine_send (th : ThLoggerProcessor) : M unit :=
  match logger_engine th with
  | Some e => LoggerEngine.send e
  | None => raise AttributeError
  end.

(** Continue at [p] after the computation [m], having made the calls
    [cs]; an exception ends [run]. *)
Definition after (th : ThLoggerProcessor) (m : M unit) (p : point) (cs : list call)
    (s : store) : ThLoggerProcessor * store :=
  match m s with
  | (Ok _, s') => (goto th p cs, s')
  | (Raise e, s') => (goto th (Failed e) [], s')
  end.

(** One statement of [run]. *)
Definition run_step (th : ThLoggerProcessor) (s : store) : ThLoggerProcessor * store :=
  match at_point th with
  | Idle =>
      match logger_engine th, logger_client th with
      | None, _ => (goto th (Failed ValueError) [], s)
      | Some _, None => (goto th (Failed ValueError) [], s)
      | Some _, Some _ =>
          if debug th
          then after th (debug_message th ("[" ++ c_name ++ "] Start.")) AtTest [] s
          else (goto th AtTest [], s)
      end
  | AtTest =>
      if negb (stopped th) then (goto th AtSend [], s) else (goto th AtLeave [], s)
  | AtSend => after th (engine_send th) AtSleep [LoopSend] s
  | AtSleep => (goto th AtTest [Sleep], s)
  | AtLeave =>
      if debug th
      then after th (debug_message th ("[" ++ c_name ++ "] Stop.")) AtFlush [] s
      else (goto th AtFlush [], s)
  | AtFlush => after th (engine_send th) Returned [FinalSend] s
  | Returned => (th, s)
  | Failed _ => (th, s)
  end.

(** [stop()] : the outcome for its caller, and the processor and the
    store as the call leaves them. *)
Definition stop (th : ThLoggerProcessor) (s : store)
    : outcome unit * ThLoggerProcessor * store :=
  let set_flag (th : ThLoggerProcessor) :=
    {| logger_engine := logger_engine th; logger_client := logger_client th;
       debug := debug th; stopped := true;
       at_point := at_point th; calls := calls th |} in
  if debug th then
    match debug_message th ("[" ++ c_name ++ "] stopping...") s with
    | (Ok _, s') => (Ok tt, set_flag th, s')
    | (Raise e, s') => (Raise e, th, s')
    end
  else (Ok tt, set_flag th, s).

(** The effect of one event on the processor and the store. *)
Definition perform (ev : event) (st : ThLoggerProcessor * store) : ThLoggerProcessor * store :=
  let '(th, s) := st in
  match ev with
  | Step => run_step th s
  | CallStop => let '(_, th', s') := stop th s in (th', s')
  | CallMessage c m lvl => (th, (LoggerClient.message c m lvl s).2)
  | CallAddEngine lvl engine =>
      match logger_engine th with
      | Some e =>
          ({| logger_engine := Some (LoggerEngine.add_engine e lvl engine).2;
              logger_client := logger_client th;
              debug := debug th; stopped := stopped th;
              at_point := at_point th; calls := calls th |}, s)
      | None => (th, s)
      end
  end.

(** A schedule, performed from left to right. *)
Definition exec (evs : list event) (st : ThLoggerProcessor * store) : ThLoggerProcessor * store :=
  foldl (fun st ev => perform ev st) st evs.

(** How many statements of [run] a schedule lets execute. *)
Fixpoint steps (evs : list event) : nat :=
  match evs with
  | [] => 0
  | Step :: evs' => S (steps evs')
  | _ :: evs' => steps evs'
  end.

End Run.

End ThLoggerProcessor.

(** ** base_logs.BLogFormatter *)

Module BLogFormatter.

(** [s.find(sub)] counted from index [i]: the lowest index, or [-1]. *)
Fixpoint find_from (sub s : string) (i : Z) : Z :=
  if String.prefix sub s then i
  else match s with
       | EmptyString => (-1)%Z
       | String _ s' => find_from sub s' (i + 1)%Z
       end.

Definition find (sub s : string) : Z := find_from sub s 0%Z.

(** Where the scan of a format string stands: in literal text, or in a
    replacement field of which [acc] has been read. *)
Inductive mode : Type :=
| Literal
| Field (acc : string).

Definition is_digit (c : ascii) : bool :=
  Nat.leb 48 (nat_of_ascii c) && Nat.leb (nat_of_ascii c) 57.

Fixpoint all_digits (s : string) : bool :=
  match s with
  | EmptyString => true
  | String c s' => is_digit c && all_digits s'
  end.

(** The characters that start an attribute, an index, a conversion, a
    format specification or a nested field. *)
Definition special (c : ascii) : bool :=
  Ascii.eqb c "." || Ascii.eqb c "[" || Ascii.eqb c "!" || Ascii.eqb c ":"
  || Ascii.eqb c "{".

Definition prepend (t : string) (r : option (outcome string)) : option (outcome string) :=
  match r with
  | Some (Ok rest) => Some (Ok (t ++ rest))
  | other => other
  end.

(** [fmt.format] applied to the keywords [kw], with no positional
    argument and string values,
    scanned from left to right: doubled braces are literal braces, a
    lone brace is a [ValueError], a field with an empty or numeric name
    is an [IndexError], a field whose name is no keyword is a
    [KeyError].  The result is [None] where the format string uses what
    this model does not cover: a field with an attribute, an index, a
    conversion, a specification or a nested field, or a numeric name of
    more than 18 digits. *)
Fixpoint str_format (kw : string → option string) (m : mode) (fmt : string)
    : option (outcome string) :=
  match m, fmt with
  | Literal, EmptyString => Some (Ok EmptyString)
  | Literal, String c r =>
      if Ascii.eqb c "{" then
        match r with
        | String d r' =>
            if Ascii.eqb d "{" then prepend "{" (str_format kw Literal r')
            else str_format kw (Field EmptyString) r
        | EmptyString => Some (Raise ValueError)
        end
      else if Ascii.eqb c "}" then
        match r with
        | String d r' =>
            if Ascii.eqb d "}" then prepend "}" (str_format kw Literal r')
            else Some (Raise ValueError)
        | EmptyString => Some (Raise ValueError)
        end
      else prepend (String c EmptyString) (str_format kw Literal r)
  | Field acc, EmptyString => Some (Raise ValueError)
  | Field acc, String c r =>
      if Ascii.eqb c "}" then
        if all_digits acc then
          if Nat.ltb 18 (String.length acc) then None else Some (Raise IndexError)
        else
          match kw acc with
          | Some v => prepend v (str_format kw Literal r)
          | None => Some (Raise KeyError)
          end
      else if special c then None
      else str_format kw (Field (acc ++ String c EmptyString)) r
  end.

(** The keywords of [item.format(message=...)] *)
Definition kw_message (message : string) (key : string) : option string :=
  if String.eqb key "message" then Some message else None.

(** and of [item.format(name=..., message=...)]. *)
Definition kw_name_message (name message : string) (key : string) : option string :=
  if String.eqb key "name" then Some name
  else if String.eqb key "message" then Some message
  else None.

(** An entry of the list [__forms]: a callable, whose result or
    exception depends on the time of the call, a string, or any other
    object. *)
Inductive form : Type :=
| Callable (f : nat → outcome value)
| Str (fmt : string)
| Other.

(** One turn of the loop of [format] at time [now]; [None] where
    [str_format] is. *)
Definition format_item (now : nat) (message name : value) (out : string) (item : form)
    : option (outcome string) :=
  match item with
  | Callable f =>
      match f now with
      | Raise e => Some (Raise e)
      | Ok v =>
          match Py.str v with
          | Raise e => Some (Raise e)
          | Ok t => Some (Ok (out ++ t ++ " "))
          end
      end
  | Str fmt =>
      if negb (is_not_none name) then
        if (find "name" fmt =? -1)%Z then
          match Py.str message with
          | Raise e => Some (Raise e)
          | Ok m => prepend out (str_format (kw_message m) Literal fmt)
          end
        else Some (Ok out)
      else
        if (0 <? find "name" fmt)%Z then
          match Py.str name with
          | Raise e => Some (Raise e)
          | Ok n =>
              match Py.str message with
              | Raise e => Some (Raise e)
              | Ok m => prepend out (str_format (kw_name_message n m) Literal fmt)
              end
          end
        else Some (Ok out)
  | Other => Some (Ok out)
  end.

Fixpoint format_loop (now : nat) (message name : value) (out : string) (forms : list form)
    : option (outcome string) :=
  match forms with
  | [] => Some (Ok out)
  | item :: rest =>
      match format_item now message name out item with
      | Some (Ok out') => format_loop now message name out' rest
      | other => other
      end
  end.

(** [format(message, name)] on a formatter whose list is [forms]. *)
Definition format (now : nat) (forms : list form) (message name : value)
    : option (outcome string) :=
  format_loop now message name EmptyString forms.

End BLogFormatter.

(** ** logstool.formatters *)

Module formatters.

Import BLogFormatter.

Section Clock.

(** [datetime.now().strftime(fmt)] at a time of the clock; the
    standard library's rendering is a parameter. *)
Variable strftime : string → nat → string.

Definition plain : list form :=
  [Str "{message}"; Str "[{name}]: {message}"].

Definition LogFormatterNull : list form := plain.

Definition LogFormatterDateTime : list form :=
  Callable (fun now => Ok (PyStr (strftime "%Y-%m-%d %H:%M:%S" now))) :: plain.

Definition LogFormatterTime : list form :=
  Callable (fun now => Ok (PyStr (strftime "%H:%M:%S" now))) :: plain.

Definition LogFormatterTimestamp : list form :=
  Callable (fun now => Ok (PyInt (Z.of_nat now))) :: plain.

End Clock.

End formatters.

(** ** base_logs.SysLogKeys *)

(** The level constants of the standard library's [syslog] module that
    [SysLogKeys] reads; their values are parameters. *)
Record syslog_levels : Type := SyslogLevels {
  LOG_ALERT : Z;
  LOG_CRIT : Z;
  LOG_DEBUG : Z;
  LOG_EMERG : Z;
  LOG_ERR : Z;
  LOG_INFO : Z;
  LOG_NOTICE : Z;
  LOG_WARNING : Z
}.

Module SysLogKeys.

(** [SysLogKeys.level_keys] *)
Definition level_keys (syslog : syslog_levels) : gmap string Z :=
  <["CRITICAL" := LOG_CRIT syslog]>
  (<["ALERT" := LOG_ALERT syslog]>
  (<["EMERGENCY" := LOG_EMERG syslog]>
  (<["ERROR" := LOG_ERR syslog]>
  (<["WARNING" := LOG_WARNING syslog]>
  (<["DEBUG" := LOG_DEBUG syslog]>
  (<["INFO" := LOG_INFO syslog]>
  (<["NOTICE" := LOG_NOTICE syslog]> ∅))))))).

End SysLogKeys.

Definition empty_store : store :=
  {| queues := ∅; next := 0; output := []; attempts := 0;
     sink_error := fun _ _ _ => None |}.

(** ** Derived notions used in the statements *)

(** The rendering of a client's name for the prefix: nothing for the
    name [None]. *)
Definition render_name (name : value) : outcome (option string) :=
  match name with
  | PyNone => Ok None
  | _ =>
      match Py.str name with
      | Ok n => Ok (Some n)
      | Raise e => Raise e
      end
  end.

(** A text behind the prefix of a rendered name. *)
Definition prefixed (n : option string) (t : string) : string :=
  match n with
  | None => t
  | Some n => "[" ++ n ++ "] " ++ t
  end.

(** What [message] makes of its argument for a client named [name]:
    the text it enqueues, or the exception of a rendering that fails;
    the message is rendered before the name. *)
Definition decorated (name m : value) : outcome value :=
  match Py.str m with
  | Raise e => Raise e
  | Ok t =>
      match render_name name with
      | Raise e => Raise e
      | Ok n => Ok (PyStr (prefixed n t))
      end
  end.

(** No call of a sink raises. *)
Definition quiet (s : store) : Prop :=
  ∀ k x m, sink_error s k x m = None.

(** The engine that [LoggerEngine()] builds when the next free identity
    is [n] (see [init_builds]). *)
Definition built (n : nat) : LoggerEngine :=
  {| le_queue := n;
     no_conf :=
       <[LogsLevelKeys.CRITICAL := [Sink "LoggerEngineStdout" (n + 7); Sink "LoggerEngineStderr" (n + 8)]]>
       (<[LogsLevelKeys.ERROR := [Sink "LoggerEngineStdout" (n + 5); Sink "LoggerEngineStderr" (n + 6)]]>
       (<[LogsLevelKeys.DEBUG := [Sink "LoggerEngineStderr" (n + 4)]]>
       (<[LogsLevelKeys.NOTICE := [Sink "LoggerEngineStdout" (n + 3)]]>
       (<[LogsLevelKeys.WARNING := [Sink "LoggerEngineStdout" (n + 2)]]>
       (<[LogsLevelKeys.INFO := [Sink "LoggerEngineStdout" (n + 1)]]> ∅)))));
     conf := None |}.

(** The store that [LoggerEngine()] leaves. *)
Definition after_init (s : store) : store :=
  {| queues := <[next s := []]> (queues s); next := next s + 9; output := output s;
     attempts := attempts s; sink_error := sink_error s |}.

(** The eight per-level operations, each with the level it sends at. *)
Definition per_level : list (string * (LoggerClient → value → M unit)) :=
  [ (LogsLevelKeys.ALERT, LoggerClient.message_alert);
    (LogsLevelKeys.CRITICAL, LoggerClient.message_critical);
    (LogsLevelKeys.DEBUG, LoggerClient.message_debug);
    (LogsLevelKeys.EMERGENCY, LoggerClient.message_emergency);
    (LogsLevelKeys.ERROR, LoggerClient.message_error);
    (LogsLevelKeys.INFO, LoggerClient.message_info);
    (LogsLevelKeys.NOTICE, LoggerClient.message_notice);
    (LogsLevelKeys.WARNING, LoggerClient.message_warning) ].

(** The unnamed client bound to queue [0], for the scenarios. *)
Definition unnamed_client : LoggerClient := {| lc_name := PyNone; logs_queue := Some 0 |}.

(** The sinks that the loop body of [send] calls for level [lvl]. *)
Definition routed (e : LoggerEngine) (lvl : string) : list ILoggerEngine :=
  match conf e with
  | Some c =>
      if bool_decide (0 < size c) then default [] (c !! lvl)
      else default [] (no_conf e !! lvl)
  | None => default [] (no_conf e !! lvl)
  end.

(** The calls [engine.send(message)] that draining the entries [l] makes. *)
Definition deliveries (e : LoggerEngine) (l : list item) : list (ILoggerEngine * value) :=
  flat_map (fun it : item => map (fun x => (x, it.2)) (routed e it.1)) l.

(** The store after the calls [o] have been made and have returned. *)
Definition add_output (o : list (ILoggerEngine * value)) (s : store) : store :=
  {| queues := queues s; next := next s; output := output s ++ o;
     attempts := attempts s + length o; sink_error := sink_error s |}.

(** The store once queue [q] has been emptied by [pop(0)] calls; a
    queue that is already empty is not written to. *)
Definition drained (q : nat) (s : store) : store :=
  match contents q s with
  | [] => s
  | _ => set_contents q [] s
  end.

(** A sink of a further class, registered in the scenarios. *)
Definition sinkA : ILoggerEngine := {| eng_class := "LoggerEngineSyslog"; eng_id := 100 |}.

(** The levels that the default table of [LoggerEngine()] has a key for. *)
Definition default_levels : list string :=
  [LogsLevelKeys.INFO; LogsLevelKeys.WARNING; LogsLevelKeys.NOTICE;
   LogsLevelKeys.DEBUG; LogsLevelKeys.ERROR; LogsLevelKeys.CRITICAL].

(** What the loop of [add_engine] makes of one registered sink. *)
Definition swap_in (engine x : ILoggerEngine) : ILoggerEngine :=
  if decide (eng_class x = eng_class engine) then engine else x.

(** Whether a sink of the class of [engine] is in the list. *)
Definition has_class (engine : ILoggerEngine) (l : list ILoggerEngine) : bool :=
  existsb (fun x => bool_decide (eng_class x = eng_class engine)) l.

(** The engines that a program can hold: a new one, and what any
    [add_engine] call, failed or not, leaves of one. *)
Inductive reachable : LoggerEngine → Prop :=
| reachable_init s e s' :
    LoggerEngine.init s = (Ok e, s') → reachable e
| reachable_add e log_level engine :
    reachable e → reachable (LoggerEngine.add_engine e log_level engine).2.

(** Every list of the custom table is non-empty and holds at most one
    sink of each class. *)
Definition distinct_classes (e : LoggerEngine) : Prop :=
  ∀ c lvl l, conf e = Some c → c !! lvl = Some l →
    l ≠ [] ∧ NoDup (eng_class <$> l).

(** The processor is inside the loop of [run]. *)
Definition in_loop (p : point) : Prop := p = AtTest ∨ p = AtSend ∨ p = AtSleep.

(** Both collaborators are set, and the client has a queue and a name
    that can be rendered, as the constructor of the client and the two
    setters of the processor leave them (see [setters_ready]). *)
Definition ready (th : ThLoggerProcessor) : Prop :=
  is_Some (logger_engine th) ∧
  ∃ c q n, logger_client th = Some c ∧ logs_queue c = Some q ∧
           render_name (lc_name c) = Ok n.

(** The calls [run] still makes from a point once the stop flag is set. *)
Definition remaining (p : point) : list call :=
  match p with
  | AtSend => [LoopSend; Sleep; FinalSend]
  | AtSleep => [Sleep; FinalSend]
  | AtTest | AtLeave | AtFlush => [FinalSend]
  | Idle | Returned | Failed _ => []
  end.

(** The statements [run] still executes from a point once the flag is set. *)
Definition distance (p : point) : nat :=
  match p with
  | AtSend => 5
  | AtSleep => 4
  | AtTest => 3
  | AtLeave => 2
  | AtFlush => 1
  | Idle | Returned | Failed _ => 0
  end.

(** [run] has been entered without failing. *)
Definition entered (p : point) : Prop :=
  match p with
  | Idle | Failed _ => False
  | _ => True
  end.

(** The flag is set on a processor that is running or has returned. *)
Definition winding_down (th : ThLoggerProcessor) : Prop :=
  stopped th = true ∧ ready th ∧ entered (at_point th).

(** A processor in debug mode, set up on a new engine with the client
    named [db], before [start()]. *)
Definition demo_processor : ThLoggerProcessor :=
  ThLoggerProcessor.set_logger_client
    (ThLoggerProcessor.set_logger_engine (ThLoggerProcessor.init true) (built 0))
    {| lc_name := PyStr "db"; logs_queue := None |}.

(** The same processor caught in its loop, about to call [send]. *)
Definition demo_running : ThLoggerProcessor :=
  {| logger_engine := logger_engine demo_processor;
     logger_client := logger_client demo_processor;
     debug := true; stopped := false; at_point := AtSend; calls := [] |}.

(** [put] of each entry of a list, in order. *)
Fixpoint put_all (q : nat) (items : list item) : M unit :=
  match items with
  | [] => ret tt
  | it :: rest => LoggerQueue.put q it.2 (PyStr it.1) ;;; put_all q rest
  end.

(** [n] calls of [get], collecting what each returns. *)
Fixpoint get_n (q : nat) (n : nat) : M (list (option item)) :=
  match n with
  | O => ret []
  | S n' => x <~ LoggerQueue.get q ;; r <~ get_n q n' ;; ret (x :: r)
  end.

(** Every entry of every queue carries one of the eight keys. *)
Definition levels_valid (s : store) : Prop :=
  ∀ q it, it ∈ contents q s → it.1 ∈ LogsLevelKeys.keys.

(** A sequence of [add_engine] calls, whatever their outcomes. *)
Definition add_engines (e : LoggerEngine) (calls : list (value * ILoggerEngine)) : LoggerEngine :=
  foldl (fun e call => (LoggerEngine.add_engine e call.1 call.2).2) e calls.

(** A sink of class [k] is registered for level [lvl] in the custom table. *)
Definition registered (e : LoggerEngine) (lvl k : string) : Prop :=
  ∃ c l, conf e = Some c ∧ c !! lvl = Some l ∧ k ∈ eng_class <$> l.

(** The loop of [run] is active and the stop flag is not set. *)
Definition looping (th : ThLoggerProcessor) : Prop :=
  in_loop (at_point th) ∧ ready th ∧ stopped th = false.

(** What has been delivered, followed by what draining the engine's
    queue now would deliver. *)
Definition backlog (e : LoggerEngine) (s : store) : list (ILoggerEngine * value) :=
  (output s ++ deliveries e (contents (le_queue e) s))%list.

(** The entry that a debug message of the processor puts on the queue
    of its client, whose name renders as [n]. *)
Definition debug_entry (c_name : string) (n : option string) (word : string) : item :=
  (LogsLevelKeys.DEBUG, PyStr (prefixed n ("[" ++ c_name ++ "] " ++ word))).

(** The debug entries that [stop()] and the end of [run] add to the
    engine's queue: none unless the processor is in debug mode and its
    client shares the engine's queue. *)
Definition farewell (c_name : string) (dbg : bool) (e : LoggerEngine)
    (c : LoggerClient) (n : option string) : list item :=
  if dbg && bool_decide (logs_queue c = Some (le_queue e))
  then [debug_entry c_name n "stopping..."; debug_entry c_name n "Stop."]
  else [].

(** The debug entry still to be queued from a point of [run] once the
    flag is set. *)
Definition owed (c_name : string) (dbg : bool) (e : LoggerEngine)
    (c : LoggerClient) (n : option string) (p : point) : list item :=
  if dbg && bool_decide (logs_queue c = Some (le_queue e))
  then match p with
       | AtSend | AtSleep | AtTest | AtLeave => [debug_entry c_name n "Stop."]
       | _ => []
       end
  else [].

(** The processor holds [e] and [c], the flag is set, and once [run]
    has returned the engine's queue is empty. *)
Definition flushing (e : LoggerEngine) (c : LoggerClient)
    (st : ThLoggerProcessor * store) : Prop :=
  logger_engine st.1 = Some e ∧ logger_client st.1 = Some c ∧
  stopped st.1 = true ∧ entered (at_point st.1) ∧
  (at_point st.1 = Returned → contents (le_queue e) st.2 = []).

(** [k] complete turns of the loop of [run]. *)
Fixpoint turns (k : nat) : list call :=
  match k with
  | O => []
  | S k' => LoopSend :: Sleep :: turns k'
  end.

(** The calls of [run] beyond its complete turns, by the point reached. *)
Definition started (p : point) : list call :=
  match p with
  | AtSleep => [LoopSend]
  | Returned => [FinalSend]
  | _ => []
  end.

(** The calls made are complete turns followed by what the point
    reached accounts for. *)
Definition well_shaped (th : ThLoggerProcessor) : Prop :=
  ∃ k, calls th = (turns k ++ started (at_point th))%list.


(** A drain of the entries [l] that a raising sink has cut short: the
    entries [done] were dispatched in full, the entry [it] was taken
    off the queue and passed to the sinks [part], a strict prefix of
    those resolved for it, before the next sink raised; [rest] is
    still queued. *)
Definition interrupted (e : LoggerEngine) (l : list item)
    (delivered : list (ILoggerEngine * value)) (rest : list item) : Prop :=
  ∃ done it part,
    l = (done ++ it :: rest)%list ∧
    delivered = (deliveries e done ++ map (fun x => (x, it.2)) part)%list ∧
    part `prefix_of` routed e it.1 ∧
    length part < length (routed e it.1).


(** A store in which the engine's queue holds one ERROR entry and the
    first call of a sink raises. *)
Definition failing_store : store :=
  {| queues := <[0 := [("ERROR", PyStr "disk full")]]> ∅;
     next := 9; output := []; attempts := 0;
     sink_error := fun k _ _ => if Nat.eqb k 0 then Some (OtherError "OSError") else None |}.

(** An event other than an [add_engine] call. *)
Definition keeps_routes (ev : event) : Prop :=
  ∀ lvl x, ev ≠ CallAddEngine lvl x.

(** The flag is not set, and [run] is in its loop or has been ended by
    an exception. *)
Definition unstopped (th : ThLoggerProcessor) : Prop :=
  stopped th = false ∧ (in_loop (at_point th) ∨ ∃ x, at_point th = Failed x).

(** What the two format strings of the plain formatter make of a
    message and a name: the message alone when the name is [None],
    otherwise the name in brackets, a colon and the message, the name
    rendered first; the exception of a rendering that fails. *)
Definition rendered_plain (message name : value) : outcome string :=
  match name with
  | PyNone => Py.str message
  | _ =>
      match Py.str name with
      | Raise e => Raise e
      | Ok n =>
          match Py.str message with
          | Raise e => Raise e
          | Ok m => Ok ("[" ++ n ++ "]: " ++ m)
          end
      end
  end.

(** A rendered stamp, a space and a rendered body; the stamp is
    rendered first. *)
Definition stamped (stamp body : outcome string) : outcome string :=
  match stamp with
  | Raise e => Raise e
  | Ok t =>
      match body with
      | Raise e => Raise e
      | Ok p => Ok (t ++ " " ++ p)
      end
  end.

(** * Properties *)

(** ** Evaluation checks *)

Example str_of_list :
  Py.str (PyList [SStr "disk full"; SStr "it's"; SInt (-3); SNone;
                  SStr (String (ascii_of_nat 160) (String (ascii_of_nat 233) EmptyString))])
  = Ok (String.concat EmptyString
          ["['disk full', "; String quote2 "it's"; String quote2 ", -3, None, '";
           String backslash "xa0"; String (ascii_of_nat 233) "']"]).
Proof. vm_compute. reflexivity. Qed.

Example put_then_get :
  (q <~ LoggerQueue.init ;;
   LoggerQueue.put q (PyStr "a") (PyStr "INFO") ;;;
   LoggerQueue.put q (PyStr "b") (PyStr "DEBUG") ;;;
   LoggerQueue.get q) empty_store
  = (Ok (Some ("INFO", PyStr "a")), set_contents 0 [("DEBUG", PyStr "b")]
       {| queues := ∅; next := 1; output := []; attempts := 0;
          sink_error := fun _ _ _ => None |}).
Proof. vm_compute. reflexivity. Qed.

Example format_strings :
  BLogFormatter.str_format (BLogFormatter.kw_message "m") BLogFormatter.Literal "{{{message}}} {}"
  = Some (Raise IndexError) ∧
  BLogFormatter.str_format (BLogFormatter.kw_message "m") BLogFormatter.Literal "<{message}>}"
  = Some (Raise ValueError) ∧
  BLogFormatter.str_format (BLogFormatter.kw_message "m") BLogFormatter.Literal "{{{message}}}"
  = Some (Ok "{m}") ∧
  BLogFormatter.str_format (BLogFormatter.kw_message "m") BLogFormatter.Literal "{name}"
  = Some (Raise KeyError) ∧
  BLogFormatter.str_format (BLogFormatter.kw_message "m") BLogFormatter.Literal "{message:>4}"
  = None.
Proof. vm_compute. repeat split; reflexivity. Qed.

(** ** The store *)

Lemma contents_set_contents q l s : contents q (set_contents q l s) = l.
Proof. unfold contents, set_contents; simpl. by rewrite lookup_insert_eq. Qed.

Lemma contents_set_contents_ne q q' l s :
  q ≠ q' → contents q' (set_contents q l s) = contents q' s.
Proof. intros Hne. unfold contents, set_contents; simpl. by rewrite lookup_insert_ne. Qed.

Lemma set_contents_twice q l l' s :
  set_contents q l' (set_contents q l s) = set_contents q l' s.
Proof. unfold set_contents; simpl. by rewrite insert_insert_eq. Qed.

(** ** Level keys *)

(** Membership of a literal in a literal list, by evaluation. *)
Ltac in_keys := eapply (bool_decide_unpack _); vm_compute; exact I.


Lemma keys_contains_true (lvl : string) :
  lvl ∈ LogsLevelKeys.keys → LogsLevelKeys.contains (PyStr lvl) = true.
Proof. intros H. simpl. by apply bool_decide_eq_true. Qed.


(** ** Queue and client *)

Lemma put_valid q (m : value) (lvl : string) s :
  lvl ∈ LogsLevelKeys.keys →
  LoggerQueue.put q m (PyStr lvl) s
  = (Ok tt, set_contents q (contents q s ++ [(lvl, m)]) s).
Proof.
  intros H. unfold LoggerQueue.put. by rewrite (keys_contains_true _ H).
Qed.


Lemma message_valid c (m : value) (lvl : string) s :
  lvl ∈ LogsLevelKeys.keys →
  LoggerClient.message c m (PyStr lvl) s
  = match decorated (lc_name c) m with
    | Raise e => (Raise e, s)
    | Ok v =>
        match logs_queue c with
        | Some q => (Ok tt, set_contents q (contents q s ++ [(lvl, v)]) s)
        | None => (Raise AttributeError, s)
        end
    end.
Proof.
  intros H. unfold LoggerClient.message.
  rewrite (keys_contains_true _ H). cbn [is_str negb].
  unfold decorated, render_name, bind, lift, ret, raise.
  destruct m as [| | |t|l]; cbn [is_str negb Py.str].
  5:{ destruct (Py.repr_items l); [|reflexivity].
      destruct (lc_name c) as [| | |n|l']; cbn [is_not_none Py.str prefixed];
        try destruct b; try destruct (Py.int_str z);
        try destruct (Py.repr_items l');
        try reflexivity; destruct (logs_queue c); try reflexivity;
        by rewrite (put_valid _ _ _ _ H). }
  all: try destruct b; try destruct (Py.int_str z); try reflexivity;
    destruct (lc_name c) as [| |z'|n|l']; cbn [is_not_none Py.str prefixed];
    try destruct b; try destruct (Py.int_str z');
    try destruct (Py.repr_items l');
    try reflexivity; destruct (logs_queue c); try reflexivity;
    by rewrite (put_valid _ _ _ _ H).
Qed.

Lemma init_builds s : LoggerEngine.init s = (Ok (built (next s)), after_init s).
Proof.
  destruct s as [qs n out a w].
  cbv beta iota zeta delta [LoggerEngine.init LoggerEngine.LoggerEngineStdout
    LoggerEngine.LoggerEngineStderr LoggerQueue.init fresh bind ret built after_init
    set_contents queues next output attempts sink_error].
  repeat f_equal; lia.
Qed.

Lemma per_level_message lvl op :
  (lvl, op) ∈ per_level →
  lvl ∈ LogsLevelKeys.keys ∧ ∀ c m, op c m = LoggerClient.message c m (PyStr lvl).
Proof.
  unfold per_level. rewrite !elem_of_cons, elem_of_nil.
  intros H. repeat destruct H as [H|H]; try done;
    inversion H; subst; (split; [in_keys|reflexivity]).
Qed.

(** Membership of a literal pair in [per_level]. *)
Ltac in_per_level :=
  unfold per_level; rewrite !elem_of_cons; auto 10.

(** ** Draining when no sink raises *)

Lemma add_output_nil s : add_output [] s = s.
Proof.
  destruct s. unfold add_output; simpl. by rewrite app_nil_r, Nat.add_0_r.
Qed.

Lemma add_output_twice o1 o2 s :
  add_output o2 (add_output o1 s) = add_output (o1 ++ o2) s.
Proof.
  unfold add_output; simpl. rewrite app_assoc, length_app. f_equal. lia.
Qed.

Lemma contents_add_output q o s : contents q (add_output o s) = contents q s.
Proof. reflexivity. Qed.

Lemma quiet_add_output o s : quiet s → quiet (add_output o s).
Proof. intros H. exact H. Qed.

Lemma quiet_set_contents q l s : quiet s → quiet (set_contents q l s).
Proof. intros H. exact H. Qed.

Lemma send_all_spec engines m : ∀ s,
  quiet s →
  LoggerEngine.send_all engines m s
  = (Ok tt, add_output (map (fun x => (x, m)) engines) s).
Proof.
  induction engines as [|x l IH]; intros s Hq; simpl.
  - unfold ret. by rewrite add_output_nil.
  - unfold bind, emit. rewrite (Hq (attempts s) x m).
    rewrite IH by exact Hq. f_equal.
    unfold add_output; simpl. rewrite <- app_assoc. f_equal. lia.
Qed.

Lemma dispatch_routed e lvl m s :
  LoggerEngine.dispatch e lvl m s = LoggerEngine.send_all (routed e lvl) m s.
Proof.
  unfold LoggerEngine.dispatch, routed.
  destruct (conf e) as [c|]; [destruct (bool_decide (0 < size c))|];
    match goal with |- context [?t !! lvl] => destruct (t !! lvl) end; reflexivity.
Qed.

Lemma dispatch_spec e lvl m s :
  quiet s →
  LoggerEngine.dispatch e lvl m s
  = (Ok tt, add_output (map (fun x => (x, m)) (routed e lvl)) s).
Proof. intros Hq. rewrite dispatch_routed. by apply send_all_spec. Qed.

Lemma send_loop_drains e l : ∀ n s,
  quiet s →
  contents (le_queue e) s = l →
  length l < n →
  LoggerEngine.send_loop e n s
  = (Ok tt, add_output (deliveries e l) (drained (le_queue e) s)).
Proof.
  induction l as [|[lvl m] l IH]; intros n s Hq Hc Hn.
  - destruct n; [simpl in Hn; lia|]. simpl.
    unfold bind, LoggerQueue.get, drained. rewrite Hc. simpl.
    unfold ret. by rewrite add_output_nil.
  - destruct n; [simpl in Hn; lia|]. simpl in Hn. simpl.
    unfold bind at 1. unfold LoggerQueue.get. rewrite Hc.
    unfold bind. rewrite dispatch_spec by exact Hq.
    set (o := map (λ x, (x, m)) (routed e lvl)).
    set (s1 := add_output o (set_contents (le_queue e) l s)).
    assert (H1 : contents (le_queue e) s1 = l).
    { unfold s1. rewrite contents_add_output. apply contents_set_contents. }
    rewrite (IH n s1 Hq H1); [|lia].
    f_equal. unfold drained. rewrite H1, Hc.
    unfold s1. destruct l.
    + by rewrite add_output_twice.
    + rewrite <- add_output_twice. f_equal.
      unfold add_output, set_contents; simpl. by rewrite insert_insert_eq.
Qed.

(** When no sink raises, [send] returns with the queue emptied and one
    call per resolved sink and entry, in queue order then registration
    order. *)
Lemma send_spec e s :
  quiet s →
  LoggerEngine.send e s
  = (Ok tt, add_output (deliveries e (contents (le_queue e) s)) (drained (le_queue e) s)).
Proof.
  intros Hq. unfold LoggerEngine.send. apply send_loop_drains; [exact Hq|reflexivity|lia].
Qed.

Lemma contents_drained q s : contents q (drained q s) = [].
Proof.
  unfold drained. destruct (contents q s) eqn:E; [exact E|].
  apply contents_set_contents.
Qed.

Lemma quiet_drained q s : quiet s → quiet (drained q s).
Proof. intros H. unfold drained. by destruct (contents q s). Qed.

(** ** Draining when a sink may raise *)

Lemma contents_same_queues q s s' : queues s' = queues s → contents q s' = contents q s.
Proof. intros H. unfold contents. by rewrite H. Qed.

Lemma send_all_run engines m : ∀ s,
  ∃ r s' part,
    LoggerEngine.send_all engines m s = (r, s') ∧
    queues s' = queues s ∧ next s' = next s ∧ sink_error s' = sink_error s ∧
    output s' = (output s ++ map (fun x => (x, m)) part)%list ∧
    part `prefix_of` engines ∧
    match r with
    | Ok _ => part = engines
    | Raise _ => length part < length engines
    end.
Proof.
  induction engines as [|x l IH]; intros s.
  - exists (Ok tt), s, []. simpl. by rewrite app_nil_r.
  - simpl. unfold bind, emit.
    destruct (sink_error s (attempts s) x m) as [err|] eqn:He.
    + eexists (Raise err), _, []. simpl. rewrite app_nil_r.
      repeat split; try done; [apply prefix_nil|lia].
    + match goal with |- context [LoggerEngine.send_all l m ?s1] =>
        destruct (IH s1) as (r & s' & part & Hr & Hq & Hn & Hw & Ho & Hp & Hm) end.
      simpl in Hq, Hn, Hw, Ho.
      exists r, s', (x :: part). rewrite Hr.
      repeat split; try done.
      * rewrite Ho, <- app_assoc. reflexivity.
      * by apply prefix_cons.
      * destruct r; simpl; [by subst|lia].
Qed.

Lemma deliveries_cons e (it : item) (l : list item) :
  deliveries e (it :: l) = (map (fun x => (x, it.2)) (routed e it.1) ++ deliveries e l)%list.
Proof. reflexivity. Qed.

Lemma send_loop_run e l : ∀ n s,
  contents (le_queue e) s = l →
  length l < n →
  ∃ r s' delivered,
    LoggerEngine.send_loop e n s = (r, s') ∧
    output s' = (output s ++ delivered)%list ∧
    next s' = next s ∧
    sink_error s' = sink_error s ∧
    (∀ q, q ≠ le_queue e → contents q s' = contents q s) ∧
    match r with
    | Ok _ => delivered = deliveries e l ∧ contents (le_queue e) s' = []
    | Raise _ => interrupted e l delivered (contents (le_queue e) s')
    end.
Proof.
  induction l as [|[lvl m] l IH]; intros n s Hc Hn.
  - destruct n; [simpl in Hn; lia|]. simpl.
    unfold bind, LoggerQueue.get. rewrite Hc. simpl.
    exists (Ok tt), s, []. rewrite app_nil_r. by repeat split.
  - destruct n; [simpl in Hn; lia|]. simpl in Hn. simpl.
    unfold bind at 1. unfold LoggerQueue.get. rewrite Hc.
    unfold bind. rewrite dispatch_routed.
    set (s0 := set_contents (le_queue e) l s).
    destruct (send_all_run (routed e lvl) m s0)
      as (r1 & s1 & part & Hr1 & Hq1 & Hn1 & Hw1 & Ho1 & Hp1 & Hm1).
    rewrite Hr1.
    assert (Hc1 : contents (le_queue e) s1 = l).
    { rewrite (contents_same_queues _ _ _ Hq1). apply contents_set_contents. }
    assert (Hother : ∀ q, q ≠ le_queue e → contents q s1 = contents q s).
    { intros q Hne. rewrite (contents_same_queues _ _ _ Hq1).
      by apply contents_set_contents_ne. }
    destruct r1 as [[]|err].
    + subst part.
      destruct (IH n s1 Hc1 ltac:(lia)) as (r & s' & d & Hr & Ho & Hnx & Hw & Hoth & Hm).
      exists r, s', (map (fun x => (x, m)) (routed e lvl) ++ d)%list.
      split; [exact Hr|]. split; [by rewrite Ho, Ho1, app_assoc|].
      split; [by rewrite Hnx, Hn1|]. split; [by rewrite Hw, Hw1|].
      split; [intros q Hne; by rewrite (Hoth q Hne), (Hother q Hne)|].
      destruct r as [[]|err].
      * destruct Hm as [-> Hm]. by split.
      * destruct Hm as (done & it & part & -> & -> & Hpre & Hlen).
        exists ((lvl, m) :: done), it, part.
        split; [reflexivity|]. split; [|by split].
        by rewrite deliveries_cons, app_assoc.
    + exists (Raise err), s1, (map (fun x => (x, m)) part).
      split; [reflexivity|]. split; [exact Ho1|].
      split; [by rewrite Hn1|]. split; [by rewrite Hw1|].
      split; [exact Hother|].
      exists [], (lvl, m), part. rewrite Hc1. by repeat split.
Qed.

Lemma send_run e s :
  ∃ r s' delivered,
    LoggerEngine.send e s = (r, s') ∧
    output s' = (output s ++ delivered)%list ∧
    next s' = next s ∧
    sink_error s' = sink_error s ∧
    (∀ q, q ≠ le_queue e → contents q s' = contents q s) ∧
    match r with
    | Ok _ => delivered = deliveries e (contents (le_queue e) s) ∧
              contents (le_queue e) s' = []
    | Raise _ => interrupted e (contents (le_queue e) s) delivered (contents (le_queue e) s')
    end.
Proof. unfold LoggerEngine.send. apply send_loop_run; [reflexivity|lia]. Qed.

(** C6: on an empty queue, [put] of a valid level [S] and a text [T]
    followed by [get] returns the pair [(S, T)], and a second [get] on
    the queue, empty again, returns [None] without raising and without
    changing anything. *)
Theorem C6_put_then_get (q : nat) (s : store) (S : string) (T : value) :
  S ∈ LogsLevelKeys.keys →
  contents q s = [] →
  ∃ s1 s2,
    LoggerQueue.put q T (PyStr S) s = (Ok tt, s1) ∧
    LoggerQueue.get q s1 = (Ok (Some (S, T)), s2) ∧
    contents q s2 = [] ∧
    LoggerQueue.get q s2 = (Ok None, s2).
Proof.
  intros HS Hq.
  exists (set_contents q [(S, T)] s), (set_contents q [] s).
  split; [|split; [|split]].
  - rewrite (put_valid _ _ _ _ HS). by rewrite Hq.
  - unfold LoggerQueue.get. rewrite contents_set_contents.
    by rewrite set_contents_twice.
  - apply contents_set_contents.
  - unfold LoggerQueue.get. by rewrite contents_set_contents.
Qed.

Lemma C6_put_then_get_witness :
  "WARNING" ∈ LogsLevelKeys.keys ∧ contents 0 (LoggerQueue.init empty_store).2 = [] ∧
  ∃ s1 s2,
    LoggerQueue.put 0 (PyStr "low disk") (PyStr "WARNING") (LoggerQueue.init empty_store).2 = (Ok tt, s1) ∧
    LoggerQueue.get 0 s1 = (Ok (Some ("WARNING", PyStr "low disk")), s2) ∧
    contents 0 s2 = [] ∧
    LoggerQueue.get 0 s2 = (Ok None, s2).
Proof.
  assert (H1 : "WARNING" ∈ LogsLevelKeys.keys) by in_keys.
  assert (H2 : contents 0 (LoggerQueue.init empty_store).2 = []) by reflexivity.
  split; [exact H1|]. split; [exact H2|].
  exact (C6_put_then_get 0 _ "WARNING" (PyStr "low disk") H1 H2).
Defined.




(** C8: for every client with a name, [message(text, level)] with a
    valid level appends to the bound queue exactly one entry, the level
    paired with the text prefixed by ["[name] "]; in particular the
    client named [db], bound to the empty queue of a new engine, sending
    [ready] at level INFO leaves the queue holding exactly
    [(INFO, "[db] ready")]. *)
Theorem C8_named_client_prefix (q : nat) (s : store) (name text lvl : string) :
  lvl ∈ LogsLevelKeys.keys →
  LoggerClient.init (Some q) (PyStr name) = Ok {| lc_name := PyStr name; logs_queue := Some q |} ∧
  LoggerClient.message {| lc_name := PyStr name; logs_queue := Some q |} (PyStr text) (PyStr lvl) s
  = (Ok tt, set_contents q (contents q s ++ [(lvl, PyStr ("[" ++ name ++ "] " ++ text))]) s) ∧
  (contents q s = [] →
   contents q (LoggerClient.message {| lc_name := PyStr name; logs_queue := Some q |}
                 (PyStr text) (PyStr lvl) s).2
   = [(lvl, PyStr ("[" ++ name ++ "] " ++ text))]).
Proof.
  intros Hl.
  assert (Hm := message_valid {| lc_name := PyStr name; logs_queue := Some q |} (PyStr text) lvl s Hl).
  simpl in Hm. split; [|split].
  - unfold LoggerClient.init, LoggerClient.set_name. simpl.
    destruct (negb (String.eqb name EmptyString)); reflexivity.
  - exact Hm.
  - intros Hq. rewrite Hm. simpl. rewrite contents_set_contents, Hq. reflexivity.
Qed.

Lemma C8_named_client_prefix_witness :
  "INFO" ∈ LogsLevelKeys.keys ∧
  LoggerEngine.init empty_store = (Ok (built 0), after_init empty_store) ∧
  contents 0 (after_init empty_store) = [] ∧
  LoggerClient.init (Some 0) (PyStr "db") = Ok {| lc_name := PyStr "db"; logs_queue := Some 0 |} ∧
  contents 0 (LoggerClient.message_info {| lc_name := PyStr "db"; logs_queue := Some 0 |}
                (PyStr "ready") (after_init empty_store)).2
  = [("INFO", PyStr "[db] ready")].
Proof.
  assert (H : "INFO" ∈ LogsLevelKeys.keys) by in_keys.
  destruct (C8_named_client_prefix 0 (after_init empty_store) "db" "ready" "INFO" H)
    as [Hi [_ Hc]].
  split; [exact H|]. split; [apply init_builds|]. split; [reflexivity|].
  split; [exact Hi|]. apply Hc. reflexivity.
Defined.




(** C4 fails as stated: the unnamed client's [message_error] applied to
    the sequence [["disk full", "retrying"]] enqueues one entry, whose
    text is the sequence's textual form, and not one entry per
    element. *)
Lemma C4_counterexample :
  contents 0 (LoggerQueue.init empty_store).2 = [] ∧
  LoggerClient.message_error unnamed_client
    (PyList [SStr "disk full"; SStr "retrying"]) (LoggerQueue.init empty_store).2
  = (Ok tt, set_contents 0 [("ERROR", PyStr "['disk full', 'retrying']")]
              (LoggerQueue.init empty_store).2) ∧
  contents 0 (LoggerClient.message_error unnamed_client
                (PyList [SStr "disk full"; SStr "retrying"]) (LoggerQueue.init empty_store).2).2
  ≠ [("ERROR", PyStr "disk full"); ("ERROR", PyStr "retrying")].
Proof.
  split; [reflexivity|]. split; [vm_compute; reflexivity|]. vm_compute. discriminate.
Qed.

(** C4, amended: on a client bound to a queue, each of the eight
    per-level operations applied to any value either appends exactly
    one entry to that queue, tagged with the operation's level, or
    raises and appends nothing.  The entry's text is the value itself
    when it is a string and its textual form otherwise (a sequence is
    not split), behind the client's name when it has one; the call
    raises exactly when that text cannot be produced, with the
    exception of the rendering. *)
Theorem C4_one_entry_per_call (c : LoggerClient) (q : nat) (s : store) (m : value)
    (lvl : string) (op : LoggerClient → value → M unit) :
  logs_queue c = Some q →
  (lvl, op) ∈ per_level →
  lvl ∈ LogsLevelKeys.keys ∧
  op c m s
  = match decorated (lc_name c) m with
    | Ok v => (Ok tt, set_contents q (contents q s ++ [(lvl, v)]) s)
    | Raise e => (Raise e, s)
    end ∧
  contents q (op c m s).2
  = match decorated (lc_name c) m with
    | Ok v => (contents q s ++ [(lvl, v)])%list
    | Raise _ => contents q s
    end.
Proof.
  intros Hq Hop. destruct (per_level_message _ _ Hop) as [Hl Heq].
  assert (Hm := message_valid c m lvl s Hl). rewrite Hq in Hm.
  split; [exact Hl|]. rewrite Heq, Hm.
  destruct (decorated (lc_name c) m); [|done].
  split; [reflexivity|]. simpl. apply contents_set_contents.
Qed.

Lemma C4_one_entry_per_call_witness :
  contents 0 (LoggerClient.message_error unnamed_client
                (PyList [SStr "disk full"; SStr "retrying"]) empty_store).2
  = [("ERROR", PyStr "['disk full', 'retrying']")].
Proof.
  assert (Hop : ("ERROR", LoggerClient.message_error) ∈ per_level) by in_per_level.
  destruct (C4_one_entry_per_call unnamed_client 0 empty_store
              (PyList [SStr "disk full"; SStr "retrying"]) _ _ eq_refl Hop) as [_ [_ H]].
  exact H.
Defined.

Lemma interrupted_prefix e (l : list item) delivered rest :
  interrupted e l delivered rest → delivered `prefix_of` deliveries e l.
Proof.
  intros (done & it & part & -> & -> & [k Hk] & _).
  unfold deliveries. rewrite flat_map_app. simpl. rewrite Hk.
  eexists. rewrite <- !app_assoc. rewrite map_app, <- !app_assoc. reflexivity.
Qed.

Lemma deliveries_skip e lvl (l : list item) :
  routed e lvl = [] →
  deliveries e l = deliveries e (filter (fun it : item => it.1 ≠ lvl) l).
Proof.
  intros Hr. induction l as [|it l IH]; [reflexivity|].
  rewrite filter_cons. destruct (decide (it.1 ≠ lvl)) as [Hne|Heq].
  - rewrite !deliveries_cons. by rewrite IH.
  - apply dec_stable in Heq. rewrite deliveries_cons, Heq, Hr. exact IH.
Qed.

(** C1: whenever the custom table holds at least one entry, the loop
    body of [send] calls no sink at all for an entry whose level is not
    a key of the custom table, whatever the default table holds for
    that level and whatever the store: it returns at once and changes
    nothing.  So in a drain of any queue, whatever else is queued, every
    sink call made comes from an entry of another level. *)
Theorem C1_custom_table_exclusive (e : LoggerEngine)
    (c : gmap string (list ILoggerEngine)) (lvl : string) :
  conf e = Some c →
  c ≠ ∅ →
  c !! lvl = None →
  (∀ m s, LoggerEngine.dispatch e lvl m s = (Ok tt, s)) ∧
  (∀ s, ∃ r s' delivered,
     LoggerEngine.send e s = (r, s') ∧
     output s' = (output s ++ delivered)%list ∧
     delivered `prefix_of`
       deliveries e (filter (fun it : item => it.1 ≠ lvl) (contents (le_queue e) s))).
Proof.
  intros Hc Hne Hl.
  assert (Hr : routed e lvl = []).
  { unfold routed. rewrite Hc, Hl.
    rewrite bool_decide_eq_true_2; [reflexivity|].
    apply map_size_non_empty_iff in Hne. lia. }
  split.
  - intros m s. by rewrite dispatch_routed, Hr.
  - intros s. destruct (send_run e s) as (r & s' & d & Hs & Ho & _ & _ & _ & Hm).
    exists r, s', d. split; [exact Hs|]. split; [exact Ho|].
    rewrite <- (deliveries_skip e lvl _ Hr).
    destruct r as [[]|err].
    + destruct Hm as [-> _]. done.
    + by eapply interrupted_prefix.
Qed.

Lemma C1_custom_table_exclusive_witness :
  conf (LoggerEngine.add_engine (built 0) (PyStr "ERROR") sinkA).2
  = Some (<["ERROR" := [sinkA]]> ∅) ∧
  no_conf (LoggerEngine.add_engine (built 0) (PyStr "ERROR") sinkA).2 !! "DEBUG"
  = Some [Sink "LoggerEngineStderr" 4] ∧
  (∀ m s, LoggerEngine.dispatch
            (LoggerEngine.add_engine (built 0) (PyStr "ERROR") sinkA).2 "DEBUG" m s
          = (Ok tt, s)) ∧
  (∀ s, ∃ r s' delivered,
     LoggerEngine.send (LoggerEngine.add_engine (built 0) (PyStr "ERROR") sinkA).2 s = (r, s') ∧
     output s' = (output s ++ delivered)%list ∧
     delivered `prefix_of`
       deliveries (LoggerEngine.add_engine (built 0) (PyStr "ERROR") sinkA).2
         (filter (fun it : item => it.1 ≠ "DEBUG") (contents 0 s))).
Proof.
  split; [reflexivity|]. split; [reflexivity|].
  apply (C1_custom_table_exclusive
           (LoggerEngine.add_engine (built 0) (PyStr "ERROR") sinkA).2
           (<["ERROR" := [sinkA]]> ∅) "DEBUG" eq_refl).
  - apply insert_non_empty.
  - reflexivity.
Defined.

(** The override scenario evaluated: after [add_engine(ERROR, sinkA)]
    on a new engine, draining a DEBUG entry queued between two ERROR
    entries calls [sinkA] for the ERROR entries and no sink for the
    DEBUG entry. *)
Example override_demo :
  LoggerEngine.send (LoggerEngine.add_engine (built 0) (PyStr "ERROR") sinkA).2
    (set_contents 0 [("ERROR", PyStr "disk full"); ("DEBUG", PyStr "probe");
                     ("ERROR", PyStr "retrying")] (after_init empty_store))
  = (Ok tt,
     add_output [(sinkA, PyStr "disk full"); (sinkA, PyStr "retrying")]
       (set_contents 0 [] (after_init empty_store))).
Proof. vm_compute. reflexivity. Qed.

Lemma send_all_attempts engines m : ∀ s,
  (attempts s ≤ attempts (LoggerEngine.send_all engines m s).2)%nat.
Proof.
  induction engines as [|x l IH]; intros s; [done|].
  simpl. unfold bind, emit.
  destruct (sink_error s (attempts s) x m); simpl; [lia|].
  etrans; [|apply IH]. simpl. lia.
Qed.

Lemma send_all_first x l m s :
  (attempts s < attempts (LoggerEngine.send_all (x :: l) m s).2)%nat ∧
  (sink_error s (attempts s) x m = None →
   ∃ rest, output (LoggerEngine.send_all (x :: l) m s).2 = (output s ++ (x, m) :: rest)%list).
Proof.
  simpl. unfold bind, emit.
  destruct (sink_error s (attempts s) x m) as [err|]; simpl.
  - split; [lia|done].
  - match goal with |- context [LoggerEngine.send_all l m ?s1] =>
      pose proof (send_all_attempts l m s1) as Ha;
      destruct (send_all_run l m s1) as (r & s' & part & Hr & _ & _ & _ & Ho & _) end.
    rewrite Hr in *. simpl in *. split; [lia|]. intros _.
    exists (map (λ y, (y, m)) part). by rewrite Ho, <- app_assoc.
Qed.

Lemma send_single e lvl m s :
  contents (le_queue e) s = [(lvl, m)] →
  (LoggerEngine.send e s).2
  = (LoggerEngine.send_all (routed e lvl) m (set_contents (le_queue e) [] s)).2.
Proof.
  intros Hc. unfold LoggerEngine.send. rewrite Hc.
  change (length [(lvl, m)]) with 1.
  cbn [LoggerEngine.send_loop].
  unfold bind at 1. unfold LoggerQueue.get at 1. rewrite Hc.
  unfold bind at 1. rewrite dispatch_routed.
  destruct (send_all_run (routed e lvl) m (set_contents (le_queue e) [] s))
    as (r & s1 & part & Hr & Hq & _).
  unfold item in *. rewrite Hr. destruct r as [[]|err]; [|reflexivity].
  unfold bind, LoggerQueue.get.
  rewrite (contents_same_queues _ _ _ Hq), contents_set_contents. reflexivity.
Qed.

(** C3 fails as stated: ALERT is one of the eight keys, yet the default
    table of a new engine has no key for it, and draining an ALERT
    entry calls no sink. *)
Lemma C3_counterexample :
  "ALERT" ∈ LogsLevelKeys.keys ∧
  LoggerEngine.init empty_store = (Ok (built 0), after_init empty_store) ∧
  no_conf (built 0) !! "ALERT" = None ∧
  (LoggerQueue.put (le_queue (built 0)) (PyStr "fire") (PyStr "ALERT") ;;;
   LoggerEngine.send (built 0)) (after_init empty_store)
  = (Ok tt, set_contents 0 [] (after_init empty_store)) ∧
  output (set_contents 0 [] (after_init empty_store)) = [] ∧
  attempts (set_contents 0 [] (after_init empty_store)) = 0.
Proof.
  split; [in_keys|]. split; [apply init_builds|]. split; [reflexivity|].
  split; [vm_compute; reflexivity|]. split; reflexivity.
Qed.

(** C3, amended: a new engine with no [add_engine] call resolves each
    of the six levels INFO, WARNING, NOTICE, DEBUG, ERROR and CRITICAL
    through the default table to at least one sink, so a drained entry
    of such a level is passed to at least one sink, and is delivered to
    the first sink of its list unless that sink's call raises; ALERT
    and EMERGENCY have no key in the default table. *)
Theorem C3_default_table_six_levels (s : store) (lvl : string) (m : value) :
  lvl ∈ default_levels →
  ∃ e s0, LoggerEngine.init s = (Ok e, s0) ∧
    conf e = None ∧
    no_conf e !! LogsLevelKeys.ALERT = None ∧
    no_conf e !! LogsLevelKeys.EMERGENCY = None ∧
    ∃ x l s1,
      no_conf e !! lvl = Some (x :: l) ∧
      LoggerQueue.put (le_queue e) m (PyStr lvl) s0 = (Ok tt, s1) ∧
      (attempts s < attempts (LoggerEngine.send e s1).2)%nat ∧
      (sink_error s (attempts s) x m = None →
       ∃ rest, output (LoggerEngine.send e s1).2 = (output s ++ (x, m) :: rest)%list).
Proof.
  intros Hl. exists (built (next s)), (after_init s).
  split; [apply init_builds|]. split; [reflexivity|].
  split; [reflexivity|]. split; [reflexivity|].
  assert (Hk : lvl ∈ LogsLevelKeys.keys).
  { unfold default_levels in Hl. rewrite !elem_of_cons, elem_of_nil in Hl.
    repeat destruct Hl as [Hl|Hl]; try done; subst lvl; in_keys. }
  assert (Hx : ∃ x l, no_conf (built (next s)) !! lvl = Some (x :: l)).
  { unfold default_levels in Hl. rewrite !elem_of_cons, elem_of_nil in Hl.
    repeat destruct Hl as [Hl|Hl]; try done; subst lvl; eexists _, _; reflexivity. }
  destruct Hx as (x & l & Hx). exists x, l.
  eexists. split; [exact Hx|]. split; [apply (put_valid _ _ _ _ Hk)|].
  assert (H0 : contents (next s) (after_init s) = []).
  { unfold contents, after_init; simpl. by rewrite lookup_insert_eq. }
  assert (Hr : routed (built (next s)) lvl = x :: l).
  { unfold routed. change (conf (built (next s))) with (@None (gmap string (list ILoggerEngine))).
    by rewrite Hx. }
  change (le_queue (built (next s))) with (next s).
  rewrite (send_single (built (next s)) lvl m)
    by (change (le_queue (built (next s))) with (next s);
        by rewrite contents_set_contents, H0).
  rewrite Hr.
  match goal with |- context [LoggerEngine.send_all (x :: l) m ?S0] =>
    destruct (send_all_first x l m S0) as [Ha Hb] end.
  split; [exact Ha|exact Hb].
Qed.

Lemma C3_default_table_six_levels_witness :
  ∃ e s0, LoggerEngine.init empty_store = (Ok e, s0) ∧
    conf e = None ∧
    no_conf e !! LogsLevelKeys.ALERT = None ∧
    no_conf e !! LogsLevelKeys.EMERGENCY = None ∧
    ∃ x l s1,
      no_conf e !! "ERROR" = Some (x :: l) ∧
      LoggerQueue.put (le_queue e) (PyStr "disk full") (PyStr "ERROR") s0 = (Ok tt, s1) ∧
      (attempts empty_store < attempts (LoggerEngine.send e s1).2)%nat ∧
      (sink_error empty_store (attempts empty_store) x (PyStr "disk full") = None →
       ∃ rest, output (LoggerEngine.send e s1).2
               = (output empty_store ++ (x, PyStr "disk full") :: rest)%list).
Proof.
  apply (C3_default_table_six_levels empty_store "ERROR" (PyStr "disk full")).
  unfold default_levels. rewrite !elem_of_cons. auto 10.
Defined.

(** ** Registration *)

Lemma replace_loop_from engine : ∀ n k l t,
  k + n = length l →
  foldl (LoggerEngine.replace_at engine) (l, t) (seq k n)
  = ((take k l ++ (swap_in engine <$> drop k l))%list, t || has_class engine (drop k l)).
Proof.
  induction n as [|n IH]; intros k l t Hlen.
  - simpl. rewrite drop_ge, take_ge by lia. simpl.
    by rewrite app_nil_r, orb_false_r.
  - simpl. destruct (lookup_lt_is_Some_2 l k) as [x Hx]; [lia|].
    rewrite (drop_S _ _ _ Hx). unfold LoggerEngine.replace_at at 2. simpl.
    rewrite Hx. unfold swap_in at 1.
    destruct (decide (eng_class x = eng_class engine)) as [Heq|Hne].
    + rewrite IH by (rewrite length_insert; lia).
      rewrite drop_insert_lt by lia.
      rewrite (take_S_r _ _ engine) by (apply list_lookup_insert_eq; lia).
      rewrite take_insert_ge by lia. rewrite <- app_assoc. simpl.
      rewrite (bool_decide_eq_true_2 _ Heq). simpl. by rewrite orb_true_r.
    + rewrite IH by lia.
      rewrite (take_S_r _ _ x Hx), <- app_assoc. simpl.
      by rewrite (bool_decide_eq_false_2 _ Hne).
Qed.

Lemma replace_loop_spec engine l :
  LoggerEngine.replace_loop engine l = (swap_in engine <$> l, has_class engine l).
Proof.
  unfold LoggerEngine.replace_loop.
  rewrite (replace_loop_from engine (length l) 0 l false) by lia.
  by rewrite take_0, drop_0.
Qed.

Lemma swap_in_class engine x : eng_class (swap_in engine x) = eng_class x.
Proof. unfold swap_in. by destruct (decide _). Qed.

Lemma swap_in_classes engine (l : list ILoggerEngine) :
  eng_class <$> (swap_in engine <$> l) = eng_class <$> l.
Proof.
  rewrite <- list_fmap_compose. apply list_fmap_ext.
  intros i x _. apply swap_in_class.
Qed.

Lemma has_class_true engine (l : list ILoggerEngine) :
  has_class engine l = true ↔ eng_class engine ∈ eng_class <$> l.
Proof.
  unfold has_class. rewrite existsb_exists, list_elem_of_fmap.
  split.
  - intros (x & Hin & Hb). apply bool_decide_eq_true in Hb.
    exists x. split; [done|]. by apply list_elem_of_In.
  - intros (x & Heq & Hin). exists x. split; [by apply list_elem_of_In|].
    by apply bool_decide_eq_true.
Qed.

Lemma has_class_false engine (l : list ILoggerEngine) :
  has_class engine l = false ↔ eng_class engine ∉ eng_class <$> l.
Proof.
  rewrite <- has_class_true. destruct (has_class engine l); naive_solver.
Qed.

(** The custom table after a successful [add_engine]. *)
Lemma add_engine_str e lvl engine :
  LoggerEngine.add_engine e (PyStr lvl) engine
  = (Ok tt,
     {| le_queue := le_queue e; no_conf := no_conf e;
        conf := Some (<[lvl :=
                  match conf e ≫= (.!! lvl) with
                  | None => [engine]
                  | Some l =>
                      if has_class engine l then swap_in engine <$> l
                      else ((swap_in engine <$> l) ++ [engine])%list
                  end]> (default ∅ (conf e))) |}).
Proof.
  unfold LoggerEngine.add_engine.
  destruct (conf e) as [c|]; simpl; [|reflexivity].
  destruct (c !! lvl) as [l|]; [|reflexivity].
  rewrite replace_loop_spec. by destruct (has_class engine l).
Qed.

Lemma swap_in_absent engine (l : list ILoggerEngine) :
  eng_class engine ∉ eng_class <$> l → swap_in engine <$> l = l.
Proof.
  intros Hn. induction l as [|x l IH]; [reflexivity|].
  rewrite fmap_cons, not_elem_of_cons in Hn. destruct Hn as [Hx Hl].
  rewrite fmap_cons, (IH Hl). f_equal.
  unfold swap_in. by destruct (decide _).
Qed.

Lemma add_engine_keeps_distinct e log_level engine :
  distinct_classes e → distinct_classes (LoggerEngine.add_engine e log_level engine).2.
Proof.
  intros He. destruct log_level; try exact He.
  rewrite add_engine_str. simpl. intros c lvl l Hc Hl.
  injection Hc as <-.
  destruct (decide (s = lvl)) as [->|Hne].
  2:{ rewrite lookup_insert_ne in Hl by done.
      destruct (conf e) as [c|] eqn:Ec; simpl in Hl; [by eapply He|done]. }
  rewrite lookup_insert_eq in Hl. injection Hl as <-.
  destruct (conf e) as [c|] eqn:Ec; simpl.
  2:{ split; [done|]. simpl. apply NoDup_singleton. }
  destruct (c !! lvl) as [l|] eqn:El.
  2:{ split; [done|]. simpl. apply NoDup_singleton. }
  destruct (He c lvl l Ec El) as [Hnil Hnd].
  destruct (has_class engine l) eqn:Hh.
  - split; [by destruct l|]. by rewrite swap_in_classes.
  - apply has_class_false in Hh. rewrite (swap_in_absent _ _ Hh).
    split; [by destruct l|].
    rewrite fmap_app. simpl. apply NoDup_app. split; [done|].
    split; [|apply NoDup_singleton].
    intros y Hy Hy'. apply list_elem_of_singleton in Hy'. by subst y.
Qed.

Lemma reachable_distinct e : reachable e → distinct_classes e.
Proof.
  induction 1 as [s e s' Hi|e lvl engine _ IH].
  - rewrite init_builds in Hi. injection Hi as <- _.
    intros c lvl l Hc. discriminate Hc.
  - by apply add_engine_keeps_distinct.
Qed.

Lemma same_class_same_index (l : list ILoggerEngine) i j x y :
  NoDup (eng_class <$> l) →
  l !! i = Some x → l !! j = Some y → eng_class x = eng_class y → i = j.
Proof.
  intros Hnd Hi Hj Heq.
  apply (NoDup_lookup (eng_class <$> l) i j (eng_class x)); [done| |];
    rewrite list_lookup_fmap.
  - by rewrite Hi.
  - rewrite Hj. simpl. by rewrite Heq.
Qed.

Lemma swap_in_unique engine (l : list ILoggerEngine) i x :
  NoDup (eng_class <$> l) →
  l !! i = Some x → eng_class x = eng_class engine →
  swap_in engine <$> l = <[i := engine]> l.
Proof.
  intros Hnd Hi Hx. apply list_eq. intros j. rewrite list_lookup_fmap.
  destruct (decide (j = i)) as [->|Hne].
  - rewrite Hi, list_lookup_insert_eq by (by eapply lookup_lt_Some). simpl.
    unfold swap_in. by destruct (decide _).
  - rewrite list_lookup_insert_ne by done.
    destruct (l !! j) as [y|] eqn:Hj; [|reflexivity]. simpl. f_equal.
    unfold swap_in. destruct (decide _) as [Hy|]; [|reflexivity].
    exfalso. apply Hne. apply (same_class_same_index l j i y x); try done.
    by rewrite Hy.
Qed.

Lemma add_engine_registers e lvl engine :
  ∃ c l, conf (LoggerEngine.add_engine e (PyStr lvl) engine).2 = Some c ∧
         c !! lvl = Some l ∧ engine ∈ l.
Proof.
  rewrite add_engine_str. simpl. eexists _, _. split; [reflexivity|].
  split; [apply lookup_insert_eq|].
  destruct (conf e ≫= (.!! lvl)) as [l|]; [|by apply list_elem_of_singleton].
  destruct (has_class engine l) eqn:Hh.
  - apply has_class_true, list_elem_of_fmap in Hh. destruct Hh as (x & Hx & Hin).
    apply list_elem_of_fmap. exists x. split; [|done].
    unfold swap_in. destruct (decide _); [done|congruence].
  - apply elem_of_app. right. by apply list_elem_of_singleton.
Qed.

(** C10: in every engine obtained from a new one by any finite sequence
    of [add_engine] calls, every level of the custom table maps to a
    non-empty list whose sinks have pairwise distinct classes. *)
Theorem C10_custom_lists_distinct (e : LoggerEngine)
    (c : gmap string (list ILoggerEngine)) (lvl : string) (l : list ILoggerEngine) :
  reachable e →
  conf e = Some c →
  c !! lvl = Some l →
  l ≠ [] ∧
  ∀ i j x y, l !! i = Some x → l !! j = Some y → eng_class x = eng_class y → i = j.
Proof.
  intros Hr Hc Hl. destruct (reachable_distinct e Hr c lvl l Hc Hl) as [Hne Hnd].
  split; [exact Hne|]. intros i j x y. by apply same_class_same_index.
Qed.

(** C7: on any engine obtained from a new one by [add_engine] calls,
    for every level and every two sinks [e1], [e2] of the same class,
    [add_engine(level, e1)] then [add_engine(level, e2)] leaves the
    level's list as it was after the first call except that [e2] stands
    at the position where [e1] stood, and [e2] is the only sink of that
    class in the list. *)
Theorem C7_replace_in_place (e : LoggerEngine) (lvl : string) (e1 e2 : ILoggerEngine) :
  reachable e →
  eng_class e1 = eng_class e2 →
  ∃ ca cb la i,
    conf (LoggerEngine.add_engine e (PyStr lvl) e1).2 = Some ca ∧
    ca !! lvl = Some la ∧
    la !! i = Some e1 ∧
    conf (LoggerEngine.add_engine
            (LoggerEngine.add_engine e (PyStr lvl) e1).2 (PyStr lvl) e2).2 = Some cb ∧
    cb !! lvl = Some (<[i := e2]> la) ∧
    (∀ j x, <[i := e2]> la !! j = Some x → eng_class x = eng_class e2 → j = i).
Proof.
  intros Hr Hcls.
  set (ea := (LoggerEngine.add_engine e (PyStr lvl) e1).2).
  assert (Hra : reachable ea) by (by apply reachable_add).
  destruct (add_engine_registers e lvl e1) as (ca & la & Hca & Hla & Hin).
  fold ea in Hca.
  destruct (reachable_distinct ea Hra ca lvl la Hca Hla) as [_ Hnd].
  apply list_elem_of_lookup in Hin. destruct Hin as [i Hi].
  exists ca, (<[lvl := <[i := e2]> la]> ca), la, i.
  split; [exact Hca|]. split; [exact Hla|]. split; [exact Hi|].
  split; [|split; [apply lookup_insert_eq|]].
  - rewrite add_engine_str. simpl. rewrite Hca. simpl. rewrite Hla.
    assert (Hh : has_class e2 la = true).
    { apply has_class_true, list_elem_of_fmap. exists e1. split; [done|].
      apply list_elem_of_lookup. by exists i. }
    rewrite Hh. by rewrite (swap_in_unique e2 la i e1 Hnd Hi Hcls).
  - intros j x Hj Hx. destruct (decide (j = i)) as [|Hne]; [done|].
    rewrite list_lookup_insert_ne in Hj by done.
    apply (same_class_same_index la j i x e1 Hnd Hj Hi). congruence.
Qed.


(** ** What a call leaves of the store *)

(** [message] leaves the store as it was or appends one entry with a
    valid level to one queue. *)
Lemma message_cases c m lvl s :
  (LoggerClient.message c m lvl s).2 = s ∨
  ∃ q it, it.1 ∈ LogsLevelKeys.keys ∧
          (LoggerClient.message c m lvl s).2 = set_contents q (contents q s ++ [it]) s.
Proof.
  destruct (is_str lvl) eqn:Hs.
  2:{ left. unfold LoggerClient.message. by rewrite Hs. }
  destruct (LogsLevelKeys.contains lvl) eqn:Hk.
  2:{ left. unfold LoggerClient.message. by rewrite Hs, Hk. }
  destruct lvl as [| | |lv|]; try discriminate Hs.
  assert (Hl : lv ∈ LogsLevelKeys.keys) by (simpl in Hk; by apply bool_decide_eq_true in Hk).
  rewrite (message_valid _ _ _ _ Hl).
  destruct (decorated (lc_name c) m) as [v|]; [|by left].
  destruct (logs_queue c) as [q|]; [|by left].
  right. by exists q, (lv, v).
Qed.

Lemma message_world c m lvl s :
  sink_error (LoggerClient.message c m lvl s).2 = sink_error s ∧
  output (LoggerClient.message c m lvl s).2 = output s.
Proof.
  destruct (message_cases c m lvl s) as [->|(q & it & _ & ->)]; by split.
Qed.

Lemma send_world e s :
  sink_error (LoggerEngine.send e s).2 = sink_error s.
Proof.
  destruct (send_run e s) as (r & s' & d & Hs & _ & _ & Hw & _). by rewrite Hs.
Qed.

(** ** The processor *)

Section Processor.

Variable c_name : string.

Lemma debug_message_ok th text s :
  ready th →
  ∃ s', ThLoggerProcessor.debug_message th text s = (Ok tt, s') ∧
        sink_error s' = sink_error s ∧ output s' = output s.
Proof.
  intros [_ (c & q & n & Hc & Hq & Hn)]. unfold ThLoggerProcessor.debug_message.
  rewrite Hc. unfold LoggerClient.message_debug.
  rewrite message_valid by in_keys. unfold decorated. simpl. rewrite Hn, Hq.
  eexists. by repeat split.
Qed.

Lemma engine_send_ok th s :
  ready th →
  quiet s →
  ∃ s', ThLoggerProcessor.engine_send th s = (Ok tt, s') ∧ quiet s'.
Proof.
  intros [[e He] _] Hq. unfold ThLoggerProcessor.engine_send.
  rewrite He, send_spec by exact Hq. eexists. split; [reflexivity|].
  by apply quiet_add_output, quiet_drained.
Qed.

Lemma after_ok th m p cs s s' :
  m s = (Ok tt, s') → ThLoggerProcessor.after th m p cs s = (ThLoggerProcessor.goto th p cs, s').
Proof. intros H. unfold ThLoggerProcessor.after. by rewrite H. Qed.

Lemma goto_winding th p cs :
  winding_down th → entered p → winding_down (ThLoggerProcessor.goto th p cs).
Proof. intros (Hs & Hr & _) Hp. by split; [|split]. Qed.

Lemma quiet_same s s' : sink_error s' = sink_error s → quiet s → quiet s'.
Proof. intros H Hq k x m. rewrite H. apply Hq. Qed.

Lemma step_winding th s :
  winding_down th →
  quiet s →
  winding_down (ThLoggerProcessor.run_step c_name th s).1 ∧
  quiet (ThLoggerProcessor.run_step c_name th s).2 ∧
  (calls (ThLoggerProcessor.run_step c_name th s).1
     ++ remaining (at_point (ThLoggerProcessor.run_step c_name th s).1))%list
  = (calls th ++ remaining (at_point th))%list ∧
  distance (at_point (ThLoggerProcessor.run_step c_name th s).1)
  = pred (distance (at_point th)).
Proof.
  intros Hw Hq. pose proof Hw as (Hs & Hr & He). unfold ThLoggerProcessor.run_step.
  destruct (at_point th) eqn:Hp; [done| | | | | | |done].
  - rewrite Hs. simpl.
    split; [by apply goto_winding|]. split; [done|]. by rewrite app_nil_r.
  - destruct (engine_send_ok th s Hr Hq) as (s' & Hs' & Hq').
    rewrite (after_ok _ _ _ _ _ _ Hs'). simpl.
    split; [by apply goto_winding|]. split; [done|]. by rewrite <- app_assoc.
  - simpl. split; [by apply goto_winding|]. split; [done|]. by rewrite <- app_assoc.
  - destruct (debug th).
    + destruct (debug_message_ok th ("[" ++ c_name ++ "] Stop.") s Hr) as (s' & Hs' & Hw' & _).
      rewrite (after_ok _ _ _ _ _ _ Hs'). simpl.
      split; [by apply goto_winding|]. split; [by eapply quiet_same|].
      by rewrite app_nil_r.
    + simpl. split; [by apply goto_winding|]. split; [done|]. by rewrite app_nil_r.
  - destruct (engine_send_ok th s Hr Hq) as (s' & Hs' & Hq').
    rewrite (after_ok _ _ _ _ _ _ Hs'). simpl.
    split; [by apply goto_winding|]. split; [done|]. by rewrite <- app_assoc.
  - simpl. rewrite Hp. simpl. by split.
Qed.

Lemma stop_ready th s :
  ready th →
  ∃ s', ThLoggerProcessor.stop c_name th s
        = (Ok tt,
           {| logger_engine := logger_engine th; logger_client := logger_client th;
              debug := debug th; stopped := true;
              at_point := at_point th; calls := calls th |}, s') ∧
        sink_error s' = sink_error s ∧ output s' = output s.
Proof.
  intros Hr. unfold ThLoggerProcessor.stop. destruct (debug th); [|by eexists].
  destruct (debug_message_ok th ("[" ++ c_name ++ "] stopping...") s Hr) as (s' & Hs' & Hw & Ho).
  rewrite Hs'. by eexists.
Qed.

Lemma perform_winding ev th s :
  winding_down th →
  quiet s →
  winding_down (ThLoggerProcessor.perform c_name ev (th, s)).1 ∧
  quiet (ThLoggerProcessor.perform c_name ev (th, s)).2 ∧
  (calls (ThLoggerProcessor.perform c_name ev (th, s)).1
     ++ remaining (at_point (ThLoggerProcessor.perform c_name ev (th, s)).1))%list
  = (calls th ++ remaining (at_point th))%list ∧
  distance (at_point (ThLoggerProcessor.perform c_name ev (th, s)).1)
  = match ev with
    | Step => pred (distance (at_point th))
    | _ => distance (at_point th)
    end.
Proof.
  intros Hw Hq. destruct ev as [| |c m lvl|lvl engine]; simpl.
  - by apply step_winding.
  - destruct Hw as (Hs & Hr & He).
    destruct (stop_ready th s Hr) as (s' & Hs' & Hw' & _). rewrite Hs'. simpl.
    split; [by split; [|split]|]. split; [by eapply quiet_same|done].
  - split; [done|]. split; [|done].
    eapply quiet_same; [|exact Hq]. apply message_world.
  - destruct (logger_engine th) as [e|] eqn:Ee; simpl; [|by split].
    destruct Hw as (Hs & [_ Hc] & He).
    split; [|done]. split; [done|]. split; [|done]. split; [by eexists|done].
Qed.

Lemma exec_winding evs : ∀ th s,
  winding_down th →
  quiet s →
  winding_down (ThLoggerProcessor.exec c_name evs (th, s)).1 ∧
  quiet (ThLoggerProcessor.exec c_name evs (th, s)).2 ∧
  (calls (ThLoggerProcessor.exec c_name evs (th, s)).1
     ++ remaining (at_point (ThLoggerProcessor.exec c_name evs (th, s)).1))%list
  = (calls th ++ remaining (at_point th))%list ∧
  distance (at_point (ThLoggerProcessor.exec c_name evs (th, s)).1)
  = distance (at_point th) - ThLoggerProcessor.steps evs.
Proof.
  induction evs as [|ev evs IH]; intros th s Hw Hq.
  - simpl. split; [done|]. split; [done|]. split; [done|lia].
  - unfold ThLoggerProcessor.exec. cbn [foldl].
    destruct (perform_winding ev th s Hw Hq) as (Hw' & Hq' & Hc' & Hd').
    destruct (ThLoggerProcessor.perform c_name ev (th, s)) as [th' s'] eqn:Hp.
    simpl in Hw', Hq', Hc', Hd'.
    destruct (IH th' s' Hw' Hq') as (Hw'' & Hq'' & Hc'' & Hd'').
    unfold ThLoggerProcessor.exec in Hw'', Hq'', Hc'', Hd''.
    split; [done|]. split; [done|]. split; [congruence|].
    rewrite Hd'', Hd'. destruct ev; simpl; lia.
Qed.

Lemma distance_zero p : entered p → distance p = 0 → p = Returned.
Proof. by destruct p. Qed.

(** A name that the constructor of the client accepts can be rendered. *)
Lemma accepted_name_renders name :
  truthy name && negb (is_str name) = false → ∃ n, render_name name = Ok n.
Proof.
  destruct name as [|[]|z|t|[|x l]]; simpl; try discriminate; try by eexists.
  destruct (z =? 0)%Z eqn:Hz; [|discriminate]. apply Z.eqb_eq in Hz. subst z.
  intros _. by eexists.
Qed.

(** The constructor of the client and the two setters leave a
    processor [ready], in either order. *)
Lemma setters_ready dbg e queue name c :
  LoggerClient.init queue name = Ok c →
  ready (ThLoggerProcessor.set_logger_client
           (ThLoggerProcessor.set_logger_engine (ThLoggerProcessor.init dbg) e) c) ∧
  ready (ThLoggerProcessor.set_logger_engine
           (ThLoggerProcessor.set_logger_client (ThLoggerProcessor.init dbg) c) e).
Proof.
  unfold LoggerClient.init, LoggerClient.set_name.
  destruct (truthy name && negb (is_str name)) eqn:Hn; [discriminate|].
  destruct (accepted_name_renders name Hn) as [n Hr].
  intros Hc.
  assert (Hname : lc_name c = name) by (destruct queue; by injection Hc as <-).
  split; (split; [by eexists|]); simpl.
  - destruct (logs_queue c) as [q|] eqn:Hq.
    + exists c, q, n. by rewrite Hname.
    + eexists _, _, n. split; [reflexivity|]. simpl. by rewrite Hname.
  - eexists _, _, n. split; [reflexivity|]. simpl. by rewrite Hname.
Qed.

End Processor.

(** ** Nothing queued is lost while no sink raises *)

Lemma deliveries_app e (l1 l2 : list item) :
  deliveries e (l1 ++ l2) = (deliveries e l1 ++ deliveries e l2)%list.
Proof. unfold deliveries. apply flat_map_app. Qed.

Lemma output_drained q s : output (drained q s) = output s.
Proof. unfold drained. by destruct (contents q s). Qed.

Lemma backlog_send e s :
  quiet s →
  backlog e (LoggerEngine.send e s).2 = backlog e s ∧
  output (LoggerEngine.send e s).2 = backlog e s ∧
  contents (le_queue e) (LoggerEngine.send e s).2 = [].
Proof.
  intros Hq. rewrite send_spec by exact Hq. simpl. unfold backlog.
  rewrite contents_add_output, contents_drained. simpl.
  rewrite app_nil_r, output_drained. done.
Qed.

Lemma backlog_append e q (l : list item) s :
  backlog e (set_contents q (contents q s ++ l) s)
  = (backlog e s ++ deliveries e (if decide (q = le_queue e) then l else []))%list.
Proof.
  unfold backlog. destruct (decide (q = le_queue e)) as [->|Hne].
  - rewrite contents_set_contents, deliveries_app, app_assoc. reflexivity.
  - rewrite contents_set_contents_ne by done. simpl. by rewrite app_nil_r.
Qed.

Lemma message_backlog e c m lvl s :
  ∃ ext, backlog e (LoggerClient.message c m lvl s).2 = (backlog e s ++ ext)%list.
Proof.
  destruct (message_cases c m lvl s) as [->|(q & it & _ & ->)].
  - exists []. by rewrite app_nil_r.
  - eexists. apply backlog_append.
Qed.

Section Backlog.

Variable c_name : string.
Variable e : LoggerEngine.

Lemma debug_message_backlog th text s :
  sink_error (ThLoggerProcessor.debug_message th text s).2 = sink_error s ∧
  output (ThLoggerProcessor.debug_message th text s).2 = output s ∧
  ∃ ext, backlog e (ThLoggerProcessor.debug_message th text s).2 = (backlog e s ++ ext)%list.
Proof.
  unfold ThLoggerProcessor.debug_message. destruct (logger_client th) as [c|].
  - unfold LoggerClient.message_debug.
    destruct (message_world c (PyStr text) (PyStr LogsLevelKeys.DEBUG) s) as [Hw Ho].
    split; [exact Hw|]. split; [exact Ho|]. apply message_backlog.
  - simpl. split; [done|]. split; [done|]. exists []. by rewrite app_nil_r.
Qed.

(** One event that leaves the routing alone, while no sink raises:
    the backlog grows at its end, and a processor that has just
    returned has delivered all of it. *)
Lemma perform_backlog ev th s :
  logger_engine th = Some e →
  quiet s →
  keeps_routes ev →
  logger_engine (ThLoggerProcessor.perform c_name ev (th, s)).1 = Some e ∧
  quiet (ThLoggerProcessor.perform c_name ev (th, s)).2 ∧
  (∃ ext, backlog e (ThLoggerProcessor.perform c_name ev (th, s)).2
          = (backlog e s ++ ext)%list) ∧
  (at_point (ThLoggerProcessor.perform c_name ev (th, s)).1 = Returned →
   (at_point th = Returned ∧
    output (ThLoggerProcessor.perform c_name ev (th, s)).2 = output s) ∨
   output (ThLoggerProcessor.perform c_name ev (th, s)).2 = backlog e s).
Proof.
  intros He Hq Hev.
  assert (Hsame : ∃ ext, backlog e s = (backlog e s ++ ext)%list)
    by (exists []; by rewrite app_nil_r).
  assert (Hdbg : ∀ text p cs,
    let st := ThLoggerProcessor.after th (ThLoggerProcessor.debug_message th text) p cs s in
    logger_engine st.1 = Some e ∧ quiet st.2 ∧
    (∃ ext, backlog e st.2 = (backlog e s ++ ext)%list) ∧
    output st.2 = output s ∧ (at_point st.1 = p ∨ ∃ x, at_point st.1 = Failed x)).
  { intros text p cs. simpl. unfold ThLoggerProcessor.after.
    destruct (debug_message_backlog th text s) as (Hw & Ho & Hb).
    destruct (ThLoggerProcessor.debug_message th text s) as [[[]|x] s']; simpl in *.
    - split; [done|]. split; [by eapply quiet_same|]. split; [done|]. split; [done|by left].
    - split; [done|]. split; [by eapply quiet_same|]. split; [done|]. split; [done|]. right. by eexists. }
  assert (Hsend : ∀ p cs,
    let st := ThLoggerProcessor.after th (ThLoggerProcessor.engine_send th) p cs s in
    logger_engine st.1 = Some e ∧ quiet st.2 ∧
    (∃ ext, backlog e st.2 = (backlog e s ++ ext)%list) ∧
    output st.2 = backlog e s ∧ at_point st.1 = p).
  { intros p cs. simpl. unfold ThLoggerProcessor.after, ThLoggerProcessor.engine_send.
    rewrite He. destruct (backlog_send e s Hq) as (Hb & Ho & _).
    rewrite send_spec in * by exact Hq. simpl in *.
    split; [done|]. split; [by apply quiet_add_output, quiet_drained|].
    split; [|done]. exists []. by rewrite app_nil_r. }
  destruct ev as [| |c m lvl|lvl engine]; simpl.
  - unfold ThLoggerProcessor.run_step. destruct (at_point th) eqn:Hp.
    + rewrite He. destruct (logger_client th) eqn:Hc; [|by repeat split].
      destruct (debug th); [|by repeat split].
      destruct (Hdbg ("[" ++ c_name ++ "] Start.") AtTest []) as (H1 & H2 & H3 & _ & H5).
      split; [exact H1|]. split; [exact H2|]. split; [exact H3|].
      intros Hr. destruct H5 as [H5|[x H5]]; rewrite H5 in Hr; discriminate.
    + destruct (negb (stopped th)); by repeat split.
    + destruct (Hsend AtSleep [LoopSend]) as (H1 & H2 & H3 & _ & H5).
      split; [exact H1|]. split; [exact H2|]. split; [exact H3|].
      intros Hr. rewrite H5 in Hr. discriminate.
    + by repeat split.
    + destruct (debug th); [|by repeat split].
      destruct (Hdbg ("[" ++ c_name ++ "] Stop.") AtFlush []) as (H1 & H2 & H3 & _ & H5).
      split; [exact H1|]. split; [exact H2|]. split; [exact H3|].
      intros Hr. destruct H5 as [H5|[x H5]]; rewrite H5 in Hr; discriminate.
    + destruct (Hsend Returned [FinalSend]) as (H1 & H2 & H3 & H4 & _).
      split; [exact H1|]. split; [exact H2|]. split; [exact H3|]. intros _. by right.
    + split; [done|]. split; [done|]. split; [done|]. intros _. by left.
    + split; [done|]. split; [done|]. split; [done|]. simpl. rewrite Hp. discriminate.
  - unfold ThLoggerProcessor.stop. destruct (debug th).
    + destruct (debug_message_backlog th ("[" ++ c_name ++ "] stopping...") s) as (Hw & Ho & Hb).
      destruct (ThLoggerProcessor.debug_message th _ s) as [[[]|x] s']; simpl in *.
      * split; [done|]. split; [by eapply quiet_same|]. split; [done|]. intros Hr. by left.
      * split; [done|]. split; [by eapply quiet_same|]. split; [done|]. intros Hr. by left.
    + simpl. split; [done|]. split; [done|]. split; [done|]. intros Hr. by left.
  - destruct (message_world c m lvl s) as [Hw Ho].
    split; [done|]. split; [by eapply quiet_same|]. split; [apply message_backlog|].
    intros Hr. by left.
  - by destruct (Hev lvl engine).
Qed.

Lemma exec_backlog evs : ∀ th s,
  logger_engine th = Some e →
  quiet s →
  Forall keeps_routes evs →
  ∃ ext, backlog e (ThLoggerProcessor.exec c_name evs (th, s)).2 = (backlog e s ++ ext)%list.
Proof.
  induction evs as [|ev evs IH]; intros th s He Hq Hev.
  - exists []. by rewrite app_nil_r.
  - apply Forall_cons in Hev as [Hev Hevs].
    unfold ThLoggerProcessor.exec. cbn [foldl].
    destruct (perform_backlog ev th s He Hq Hev) as (He' & Hq' & (x1 & Hx1) & _).
    destruct (ThLoggerProcessor.perform c_name ev (th, s)) as [th' s'].
    simpl in He', Hq', Hx1. destruct (IH th' s' He' Hq' Hevs) as (x2 & Hx2).
    exists (x1 ++ x2)%list. unfold ThLoggerProcessor.exec in Hx2.
    by rewrite Hx2, Hx1, app_assoc.
Qed.


End Backlog.




Lemma C10_custom_lists_distinct_witness :
  reachable (LoggerEngine.add_engine
               (LoggerEngine.add_engine (built 0) (PyStr "ERROR") sinkA).2
               (PyStr "ERROR") (Sink "LoggerEngineStdout" 101)).2 ∧
  [sinkA; Sink "LoggerEngineStdout" 101] ≠ [] ∧
  ∀ i j x y,
    [sinkA; Sink "LoggerEngineStdout" 101] !! i = Some x →
    [sinkA; Sink "LoggerEngineStdout" 101] !! j = Some y →
    eng_class x = eng_class y → i = j.
Proof.
  assert (Hr : reachable (LoggerEngine.add_engine
               (LoggerEngine.add_engine (built 0) (PyStr "ERROR") sinkA).2
               (PyStr "ERROR") (Sink "LoggerEngineStdout" 101)).2).
  { do 2 apply reachable_add. apply (reachable_init empty_store _ _ (init_builds _)). }
  split; [exact Hr|].
  apply (C10_custom_lists_distinct _
           (<["ERROR" := [sinkA; Sink "LoggerEngineStdout" 101]]> ∅) "ERROR" _ Hr).
  - vm_compute. reflexivity.
  - reflexivity.
Defined.

Lemma C7_replace_in_place_witness :
  reachable (LoggerEngine.add_engine (built 0) (PyStr "ERROR") sinkA).2 ∧
  ∃ ca cb la i,
    conf (LoggerEngine.add_engine
            (LoggerEngine.add_engine (built 0) (PyStr "ERROR") sinkA).2
            (PyStr "ERROR") (Sink "LoggerEngineStdout" 101)).2 = Some ca ∧
    ca !! "ERROR" = Some la ∧
    la !! i = Some (Sink "LoggerEngineStdout" 101) ∧
    conf (LoggerEngine.add_engine
            (LoggerEngine.add_engine
               (LoggerEngine.add_engine (built 0) (PyStr "ERROR") sinkA).2
               (PyStr "ERROR") (Sink "LoggerEngineStdout" 101)).2
            (PyStr "ERROR") (Sink "LoggerEngineStdout" 102)).2 = Some cb ∧
    cb !! "ERROR" = Some (<[i := Sink "LoggerEngineStdout" 102]> la) ∧
    (∀ j x, <[i := Sink "LoggerEngineStdout" 102]> la !! j = Some x →
            eng_class x = eng_class (Sink "LoggerEngineStdout" 102) → j = i).
Proof.
  assert (Hr : reachable (LoggerEngine.add_engine (built 0) (PyStr "ERROR") sinkA).2).
  { apply reachable_add. apply (reachable_init empty_store _ _ (init_builds _)). }
  split; [exact Hr|].
  exact (C7_replace_in_place _ "ERROR" (Sink "LoggerEngineStdout" 101)
           (Sink "LoggerEngineStdout" 102) Hr eq_refl).
Defined.

(** The scenario of C7 evaluated: the second sink of the class takes
    the place of the first, behind the sink registered before them. *)
Example replace_in_place_demo :
  conf (LoggerEngine.add_engine
          (LoggerEngine.add_engine
             (LoggerEngine.add_engine (built 0) (PyStr "ERROR") sinkA).2
             (PyStr "ERROR") (Sink "LoggerEngineStdout" 101)).2
          (PyStr "ERROR") (Sink "LoggerEngineStdout" 102)).2
  = Some (<["ERROR" := [sinkA; Sink "LoggerEngineStdout" 102]]> ∅).
Proof. vm_compute. reflexivity. Qed.

(** A whole run in debug mode: start, one turn of the loop, [stop()],
    the rest of the turn and the final flush. *)
Example run_demo :
  let st := ThLoggerProcessor.exec "ThLoggerProcessor"
              [Step; Step; Step; CallStop; Step; Step; Step; Step; Step]
              (demo_processor, after_init empty_store) in
  at_point st.1 = Returned ∧
  calls st.1 = [LoopSend; Sleep; FinalSend] ∧
  contents 0 st.2 = [] ∧
  output st.2
  = [(Sink "LoggerEngineStderr" 4, PyStr "[db] [ThLoggerProcessor] Start.");
     (Sink "LoggerEngineStderr" 4, PyStr "[db] [ThLoggerProcessor] stopping...");
     (Sink "LoggerEngineStderr" 4, PyStr "[db] [ThLoggerProcessor] Stop.")].
Proof. vm_compute. repeat split; reflexivity. Qed.

(** * Further properties of the code *)

(** ** The queue as a FIFO *)

Lemma put_all_valid q (items : list item) : ∀ s,
  Forall (fun it => it.1 ∈ LogsLevelKeys.keys) items →
  ∃ s', put_all q items s = (Ok tt, s') ∧
        contents q s' = (contents q s ++ items)%list ∧
        output s' = output s ∧
        (∀ q', q' ≠ q → contents q' s' = contents q' s).
Proof.
  induction items as [|[lvl m] items IH]; intros s Hv.
  - exists s. simpl. by rewrite app_nil_r.
  - apply Forall_cons in Hv as [Hl Hv]. simpl in Hl.
    change (put_all q ((lvl, m) :: items))
      with (LoggerQueue.put q m (PyStr lvl) ;;; put_all q items).
    unfold bind. rewrite (put_valid _ _ _ _ Hl).
    destruct (IH (set_contents q (contents q s ++ [(lvl, m)]) s) Hv)
      as (s' & He & Hc & Ho & Hq).
    exists s'. split; [exact He|]. split; [|split].
    + rewrite Hc, contents_set_contents, <- app_assoc. reflexivity.
    + rewrite Ho. reflexivity.
    + intros q' Hne. rewrite (Hq q' Hne). by apply contents_set_contents_ne.
Qed.

Lemma get_n_empty q k : ∀ s,
  contents q s = [] → get_n q k s = (Ok (replicate k None), s).
Proof.
  induction k as [|k IH]; intros s Hs; [reflexivity|].
  simpl. unfold bind at 1. unfold LoggerQueue.get. rewrite Hs.
  unfold bind. rewrite (IH s Hs). reflexivity.
Qed.

Lemma get_n_contents q k (l : list item) : ∀ s,
  contents q s = l →
  get_n q (length l + k) s
  = (Ok ((Some <$> l) ++ replicate k None)%list, drained q s).
Proof.
  induction l as [|it l IH]; intros s Hs.
  - simpl. rewrite (get_n_empty q k s Hs). unfold drained. by rewrite Hs.
  - simpl. unfold bind at 1. unfold LoggerQueue.get. rewrite Hs.
    unfold bind. rewrite (IH (set_contents q l s)) by apply contents_set_contents.
    unfold ret. f_equal. unfold drained. rewrite contents_set_contents, Hs.
    destruct l; [reflexivity|]. apply set_contents_twice.
Qed.

(** X1: the queue is first in, first out.  After [put] of any list of
    entries with valid levels, successive [get] calls return what the
    queue held before, then the new entries in the order they were put,
    then [None] for every further call; the queue ends empty. *)
Theorem X1_queue_fifo (q : nat) (s : store) (items : list item) (k : nat) :
  Forall (fun it => it.1 ∈ LogsLevelKeys.keys) items →
  ∃ s',
    (put_all q items ;;;
     get_n q (length (contents q s) + length items + k)) s
    = (Ok ((Some <$> (contents q s ++ items)) ++ replicate k None)%list, s') ∧
    contents q s' = [].
Proof.
  intros Hv. destruct (put_all_valid q items s Hv) as (s1 & He & Hc & _ & _).
  exists (drained q s1). split; [|apply contents_drained].
  unfold bind. rewrite He.
  rewrite <- length_app, <- Hc. apply get_n_contents. reflexivity.
Qed.

Lemma X1_queue_fifo_witness :
  ∃ s',
    (put_all 0 [("INFO", PyStr "T1"); ("ERROR", PyStr "T2")] ;;; get_n 0 4)
      (set_contents 0 [("DEBUG", PyStr "T0")] empty_store)
    = (Ok [Some ("DEBUG", PyStr "T0"); Some ("INFO", PyStr "T1");
           Some ("ERROR", PyStr "T2"); None], s') ∧
    contents 0 s' = [].
Proof.
  apply (X1_queue_fifo 0 (set_contents 0 [("DEBUG", PyStr "T0")] empty_store)
           [("INFO", PyStr "T1"); ("ERROR", PyStr "T2")] 1).
  repeat constructor; simpl; in_keys.
Defined.

(** ** Draining *)

Lemma contents_drained_ne q q' s : q ≠ q' → contents q' (drained q s) = contents q' s.
Proof.
  intros Hne. unfold drained. destruct (contents q s); [reflexivity|].
  by apply contents_set_contents_ne.
Qed.

(** X2: [send] drains in order, and a raising sink is all that stops
    it.  Whatever happens, what [send] hands to the sinks is appended
    to what they had, and no other queue and no identity is touched.
    When [send] returns, it has called, for each entry in queue order,
    each sink resolved for the entry's level in registration order
    (custom table when it is present and non-empty, default table
    otherwise), and the engine's queue is empty.  When it raises, the
    entries before some entry were dispatched in full, that entry was
    taken off the queue and passed to some, not all, of its sinks, and
    the entries behind it are still queued.  It returns whenever no
    call of a sink raises. *)
Theorem X2_send_drains_in_order (e : LoggerEngine) (s : store) :
  ∃ r s' delivered,
    LoggerEngine.send e s = (r, s') ∧
    output s' = (output s ++ delivered)%list ∧
    next s' = next s ∧
    (∀ q, q ≠ le_queue e → contents q s' = contents q s) ∧
    match r with
    | Ok _ => delivered = deliveries e (contents (le_queue e) s) ∧
              contents (le_queue e) s' = []
    | Raise _ => interrupted e (contents (le_queue e) s) delivered (contents (le_queue e) s')
    end ∧
    (quiet s → r = Ok tt).
Proof.
  destruct (send_run e s) as (r & s' & d & Hs & Ho & Hn & _ & Hq & Hm).
  exists r, s', d. split; [exact Hs|]. split; [exact Ho|]. split; [exact Hn|].
  split; [exact Hq|]. split; [exact Hm|].
  intros Hquiet. rewrite (send_spec e s Hquiet) in Hs. by injection Hs as <- _.
Qed.

(** What a raising sink does to a drain, evaluated: of two queued
    ERROR entries the first is lost after one of its two sinks has
    been called, and the second stays on the queue. *)
Example send_interrupted_demo :
  let s := set_contents 0 [("ERROR", PyStr "disk full"); ("ERROR", PyStr "retrying")]
             {| queues := ∅; next := 9; output := []; attempts := 0;
                sink_error := fun k _ _ =>
                  if Nat.eqb k 1 then Some (OtherError "OSError") else None |} in
  (LoggerEngine.send (built 0) s).1 = Raise (OtherError "OSError") ∧
  output (LoggerEngine.send (built 0) s).2 = [(Sink "LoggerEngineStdout" 5, PyStr "disk full")] ∧
  contents 0 (LoggerEngine.send (built 0) s).2 = [("ERROR", PyStr "retrying")].
Proof. vm_compute. repeat split; reflexivity. Qed.

(** ** How calls fail *)

(** X3: [message] can fail in four ways only, tested in this order: a
    level that is not a string ([TypeError]), a string that is not a
    key ([KeyError]), for a valid level a message or a name whose
    rendering raises (that exception), and a client with no queue (the
    [AttributeError] of calling [put] on [None]).  In each case the
    store is left exactly as it was. *)
Theorem X3_message_failures (c : LoggerClient) (m lvl : value) (s s' : store) (e : exc) :
  LoggerClient.message c m lvl s = (Raise e, s') →
  s' = s ∧
  (e = TypeError ∧ is_str lvl = false ∨
   e = KeyError ∧ is_str lvl = true ∧ LogsLevelKeys.contains lvl = false ∨
   LogsLevelKeys.contains lvl = true ∧ decorated (lc_name c) m = Raise e ∨
   e = AttributeError ∧ LogsLevelKeys.contains lvl = true ∧
     (∃ v, decorated (lc_name c) m = Ok v) ∧ logs_queue c = None).
Proof.
  destruct (is_str lvl) eqn:Hs.
  2:{ unfold LoggerClient.message. rewrite Hs. simpl.
      intros H. injection H as <- <-. split; [done|]. by left. }
  destruct (LogsLevelKeys.contains lvl) eqn:Hk.
  2:{ unfold LoggerClient.message. rewrite Hs, Hk. simpl.
      intros H. injection H as <- <-. split; [done|]. right. by left. }
  destruct lvl as [| | |lv|]; try discriminate Hs.
  assert (Hl : lv ∈ LogsLevelKeys.keys) by (simpl in Hk; by apply bool_decide_eq_true in Hk).
  rewrite (message_valid _ _ _ _ Hl).
  destruct (decorated (lc_name c) m) as [v|x] eqn:Hd.
  - destruct (logs_queue c) as [q|]; [discriminate|].
    intros H. injection H as <- <-. split; [done|]. do 3 right.
    split; [done|]. split; [done|]. split; [by eexists|done].
  - intros H. injection H as <- <-. split; [done|]. right. right. left. by split.
Qed.

Lemma X3_message_failures_witness :
  empty_store = empty_store ∧
  (AttributeError = TypeError ∧ is_str (PyStr "INFO") = false ∨
   AttributeError = KeyError ∧ is_str (PyStr "INFO") = true ∧
     LogsLevelKeys.contains (PyStr "INFO") = false ∨
   LogsLevelKeys.contains (PyStr "INFO") = true ∧
     decorated (lc_name {| lc_name := PyStr "db"; logs_queue := None |}) (PyStr "ready")
     = Raise AttributeError ∨
   AttributeError = AttributeError ∧ LogsLevelKeys.contains (PyStr "INFO") = true ∧
     (∃ v, decorated (lc_name {| lc_name := PyStr "db"; logs_queue := None |}) (PyStr "ready")
           = Ok v) ∧
     logs_queue {| lc_name := PyStr "db"; logs_queue := None |} = None).
Proof.
  apply (X3_message_failures {| lc_name := PyStr "db"; logs_queue := None |}
           (PyStr "ready") (PyStr "INFO") empty_store empty_store AttributeError).
  reflexivity.
Defined.

(** ** Only valid levels are ever queued *)

Lemma levels_valid_set q l s :
  levels_valid s →
  (∀ it, it ∈ l → it.1 ∈ LogsLevelKeys.keys) →
  levels_valid (set_contents q l s).
Proof.
  intros Hs Hl q' it. destruct (decide (q = q')) as [<-|Hne].
  - rewrite contents_set_contents. apply Hl.
  - rewrite contents_set_contents_ne by done. apply Hs.
Qed.

Lemma put_levels_valid q m lvl s :
  levels_valid s → levels_valid (LoggerQueue.put q m lvl s).2.
Proof.
  intros Hs. unfold LoggerQueue.put.
  destruct (LogsLevelKeys.contains lvl) eqn:Hk; simpl.
  2:{ unfold bind, lift, raise. by destruct (Py.str lvl). }
  destruct lvl as [| | |lv|]; try exact Hs.
  apply levels_valid_set; [exact Hs|].
  intros it Hit. apply elem_of_app in Hit as [Hit|Hit]; [by eapply Hs|].
  apply list_elem_of_singleton in Hit. subst it. simpl.
  simpl in Hk. by apply bool_decide_eq_true in Hk.
Qed.

Lemma message_levels_valid c m lvl s :
  levels_valid s → levels_valid (LoggerClient.message c m lvl s).2.
Proof.
  intros Hs. destruct (message_cases c m lvl s) as [->|(q & it & Hit & ->)]; [exact Hs|].
  apply levels_valid_set; [exact Hs|].
  intros x Hx. apply elem_of_app in Hx as [Hx|Hx]; [by eapply Hs|].
  apply list_elem_of_singleton in Hx. by subst x.
Qed.

(** [send] adds no entry to any queue, whether it returns or raises. *)
Lemma send_contents_subset e s q it :
  it ∈ contents q (LoggerEngine.send e s).2 → it ∈ contents q s.
Proof.
  destruct (send_run e s) as (r & s' & d & Hs & _ & _ & _ & Hq & Hm).
  rewrite Hs. simpl. destruct (decide (q = le_queue e)) as [->|Hne].
  - destruct r as [[]|x].
    + destruct Hm as [_ ->]. intros H. by apply elem_of_nil in H.
    + destruct Hm as (dn & it' & part & Hl & _). rewrite Hl. intros H.
      apply elem_of_app. right. by apply elem_of_cons; right.
  - by rewrite (Hq q Hne).
Qed.

Lemma send_levels_valid e s :
  levels_valid s → levels_valid (LoggerEngine.send e s).2.
Proof. intros Hs q it Hit. apply (Hs q). by eapply send_contents_subset. Qed.

Section Levels.

Variable c_name : string.

Lemma after_levels_valid th m p cs s :
  levels_valid (m s).2 → levels_valid (ThLoggerProcessor.after th m p cs s).2.
Proof. unfold ThLoggerProcessor.after. by destruct (m s) as [[[]|] s']. Qed.

Lemma debug_message_levels_valid th text s :
  levels_valid s → levels_valid (ThLoggerProcessor.debug_message th text s).2.
Proof.
  intros Hs. unfold ThLoggerProcessor.debug_message.
  destruct (logger_client th); [|exact Hs]. by apply message_levels_valid.
Qed.

Lemma engine_send_levels_valid th s :
  levels_valid s → levels_valid (ThLoggerProcessor.engine_send th s).2.
Proof.
  intros Hs. unfold ThLoggerProcessor.engine_send.
  destruct (logger_engine th); [|exact Hs]. by apply send_levels_valid.
Qed.

Lemma perform_levels_valid ev th s :
  levels_valid s → levels_valid (ThLoggerProcessor.perform c_name ev (th, s)).2.
Proof.
  intros Hs. destruct ev as [| |c m lvl|lvl engine]; simpl.
  - unfold ThLoggerProcessor.run_step.
    destruct (at_point th); try exact Hs.
    + destruct (logger_engine th), (logger_client th); try exact Hs.
      destruct (debug th); [|exact Hs].
      by apply after_levels_valid, debug_message_levels_valid.
    + by destruct (negb (stopped th)).
    + by apply after_levels_valid, engine_send_levels_valid.
    + destruct (debug th); [|exact Hs].
      by apply after_levels_valid, debug_message_levels_valid.
    + by apply after_levels_valid, engine_send_levels_valid.
  - unfold ThLoggerProcessor.stop. destruct (debug th); [|exact Hs].
    pose proof (debug_message_levels_valid th ("[" ++ c_name ++ "] stopping...") s Hs) as H.
    by destruct (ThLoggerProcessor.debug_message th _ s) as [[[]|] s'].
  - by apply message_levels_valid.
  - by destruct (logger_engine th).
Qed.

Lemma exec_levels_valid evs : ∀ th s,
  levels_valid s → levels_valid (ThLoggerProcessor.exec c_name evs (th, s)).2.
Proof.
  induction evs as [|ev evs IH]; intros th s Hs; [exact Hs|].
  unfold ThLoggerProcessor.exec. cbn [foldl].
  pose proof (perform_levels_valid ev th s Hs) as H.
  destruct (ThLoggerProcessor.perform c_name ev (th, s)) as [th' s'].
  by apply IH.
Qed.

End Levels.

(** X4: a queue never holds an entry whose level is not one of the
    eight keys.  If that is true of a store, it is still true after any
    [put] (whatever its arguments) and after any schedule of processor
    statements, [stop()] calls, client messages and [add_engine]
    calls. *)
Theorem X4_only_valid_levels_queued (c_name : string) (th : ThLoggerProcessor)
    (s : store) (evs : list event) (q : nat) (m lvl : value) :
  levels_valid s →
  levels_valid (LoggerQueue.put q m lvl s).2 ∧
  levels_valid (ThLoggerProcessor.exec c_name evs (th, s)).2.
Proof.
  intros Hs. split; [by apply put_levels_valid|by apply exec_levels_valid].
Qed.

Lemma X4_only_valid_levels_queued_witness :
  levels_valid (LoggerQueue.put 0 (PyStr "x") (PyStr "TRACE") empty_store).2 ∧
  levels_valid (ThLoggerProcessor.exec "ThLoggerProcessor"
                  [Step; CallMessage unnamed_client (PyStr "a") (PyStr "INFO"); CallStop]
                  (demo_processor, empty_store)).2.
Proof.
  apply X4_only_valid_levels_queued.
  intros q it H. unfold contents, empty_store in H. simpl in H.
  rewrite lookup_empty in H. by apply elem_of_nil in H.
Defined.


(** ** More on registration *)

(** X5: [add_engine] with a string level always succeeds, whether or
    not the string is one of the eight keys.  Afterwards the sink is in
    the level's list, which is as long as before when a sink of its
    class was there and one longer otherwise; the lists of all other
    levels, the default table and the queue are untouched. *)
Theorem X5_add_engine_effect (e : LoggerEngine) (lvl : string) (engine : ILoggerEngine) :
  ∃ e' c' l',
    LoggerEngine.add_engine e (PyStr lvl) engine = (Ok tt, e') ∧
    le_queue e' = le_queue e ∧
    no_conf e' = no_conf e ∧
    conf e' = Some c' ∧
    c' !! lvl = Some l' ∧
    engine ∈ l' ∧
    length l'
    = match conf e ≫= (.!! lvl) with
      | None => 1
      | Some l => if has_class engine l then length l else S (length l)
      end ∧
    (∀ lvl', lvl' ≠ lvl → c' !! lvl' = conf e ≫= (.!! lvl')).
Proof.
  destruct (add_engine_registers e lvl engine) as (c & l & Hc & Hl & Hin).
  revert Hc Hl Hin. rewrite add_engine_str. simpl. intros Hc Hl Hin.
  injection Hc as <-. rewrite lookup_insert_eq in Hl. injection Hl as <-.
  eexists _, _, _. split; [reflexivity|]. simpl.
  split; [done|]. split; [done|]. split; [done|].
  split; [apply lookup_insert_eq|]. split; [exact Hin|]. split.
  - destruct (conf e ≫= (.!! lvl)) as [l|]; [|reflexivity].
    destruct (has_class engine l).
    + by rewrite length_fmap.
    + rewrite length_app, length_fmap. simpl. lia.
  - intros lvl' Hne. rewrite lookup_insert_ne by done.
    destruct (conf e); [reflexivity|]. simpl. apply lookup_empty.
Qed.

Lemma add_engine_keeps_registered e log_level engine lvl k :
  registered e lvl k → registered (LoggerEngine.add_engine e log_level engine).2 lvl k.
Proof.
  intros (c & l & Hc & Hl & Hk). destruct log_level as [| | |lv|]; try by exists c, l.
  rewrite add_engine_str. unfold registered. simpl. rewrite Hc. simpl.
  destruct (decide (lv = lvl)) as [->|Hne].
  - rewrite Hl. eexists _, _. split; [reflexivity|].
    split; [apply lookup_insert_eq|].
    destruct (has_class engine l).
    + by rewrite swap_in_classes.
    + rewrite fmap_app, swap_in_classes. apply elem_of_app. by left.
  - eexists _, l. split; [reflexivity|]. split; [|exact Hk].
    by rewrite lookup_insert_ne.
Qed.

(** X6: registration is permanent.  Once a sink of some class is
    registered for a level, a sink of that class stays registered for
    that level through any further sequence of [add_engine] calls: the
    engine has no way to remove a class from a level. *)
Theorem X6_registration_is_permanent (e : LoggerEngine) (lvl k : string)
    (calls : list (value * ILoggerEngine)) :
  registered e lvl k → registered (add_engines e calls) lvl k.
Proof.
  revert e. induction calls as [|call calls IH]; intros e Hr; [exact Hr|].
  unfold add_engines. cbn [foldl]. apply IH.
  by apply add_engine_keeps_registered.
Qed.

Lemma X6_registration_is_permanent_witness :
  registered (add_engines (LoggerEngine.add_engine (built 0) (PyStr "ERROR") sinkA).2
                [(PyStr "ERROR", Sink "LoggerEngineStdout" 101);
                 (PyInt 3, sinkA);
                 (PyStr "DEBUG", Sink "LoggerEngineSyslog" 102);
                 (PyStr "ERROR", Sink "LoggerEngineSyslog" 103)])
    "ERROR" "LoggerEngineSyslog".
Proof.
  apply X6_registration_is_permanent.
  exists (<["ERROR" := [sinkA]]> ∅), [sinkA].
  split; [reflexivity|]. split; [reflexivity|].
  apply list_elem_of_fmap. exists sinkA. split; [reflexivity|].
  by apply list_elem_of_singleton.
Defined.

Lemma reachable_conf_non_empty e c : reachable e → conf e = Some c → c ≠ ∅.
Proof.
  intros Hr. revert c. induction Hr as [s e s' Hi|e lvl engine _ IH]; intros c Hc.
  - rewrite init_builds in Hi. injection Hi as <- _. discriminate Hc.
  - destruct lvl as [| | |lv|]; try by apply IH.
    rewrite add_engine_str in Hc. simpl in Hc. injection Hc as <-.
    apply insert_non_empty.
Qed.

(** X7: there is no way back to default routing.  In every engine
    obtained from a new one by [add_engine] calls, a custom table that
    is present is non-empty, so every level is routed by the custom
    table alone, and every later [add_engine] call leaves a custom
    table in place. *)
Theorem X7_custom_routing_is_final (e : LoggerEngine)
    (c : gmap string (list ILoggerEngine)) (calls : list (value * ILoggerEngine)) :
  reachable e →
  conf e = Some c →
  c ≠ ∅ ∧
  (∀ lvl, routed e lvl = default [] (c !! lvl)) ∧
  ∃ c', conf (add_engines e calls) = Some c' ∧ c' ≠ ∅.
Proof.
  intros Hr Hc. pose proof (reachable_conf_non_empty e c Hr Hc) as Hne.
  split; [exact Hne|]. split.
  - intros lvl. unfold routed. rewrite Hc.
    rewrite bool_decide_eq_true_2; [reflexivity|].
    apply map_size_non_empty_iff in Hne. lia.
  - revert e c Hr Hc Hne. induction calls as [|[lv x] calls IH]; intros e c Hr Hc Hne.
    + by exists c.
    + unfold add_engines. cbn [foldl]. simpl.
      assert (Hr' : reachable (LoggerEngine.add_engine e lv x).2) by (by apply reachable_add).
      assert (∃ c1, conf (LoggerEngine.add_engine e lv x).2 = Some c1) as [c1 Hc1].
      { destruct lv; try by exists c. rewrite add_engine_str. by eexists. }
      apply (IH _ c1 Hr' Hc1). by eapply reachable_conf_non_empty.
Qed.

Lemma X7_custom_routing_is_final_witness :
  <["ERROR" := [sinkA]]> ∅ ≠ (∅ : gmap string (list ILoggerEngine)) ∧
  (∀ lvl, routed (LoggerEngine.add_engine (built 0) (PyStr "ERROR") sinkA).2 lvl
          = default [] ((<["ERROR" := [sinkA]]> ∅ : gmap string (list ILoggerEngine)) !! lvl)) ∧
  ∃ c', conf (add_engines (LoggerEngine.add_engine (built 0) (PyStr "ERROR") sinkA).2
                [(PyNone, sinkA); (PyStr "INFO", sinkA)]) = Some c' ∧ c' ≠ ∅.
Proof.
  apply X7_custom_routing_is_final; [|reflexivity].
  apply reachable_add. apply (reachable_init empty_store _ _ (init_builds _)).
Defined.

(** X8: registering the same sink twice is the same as registering it
    once: on every engine obtained from a new one by [add_engine]
    calls, a repeated [add_engine(level, sink)] changes nothing. *)
Theorem X8_add_engine_idempotent (e : LoggerEngine) (lvl : value) (engine : ILoggerEngine) :
  reachable e →
  LoggerEngine.add_engine (LoggerEngine.add_engine e lvl engine).2 lvl engine
  = ((LoggerEngine.add_engine e lvl engine).1,
     (LoggerEngine.add_engine e lvl engine).2).
Proof.
  intros Hr. destruct lvl as [| | |lv|]; try reflexivity.
  assert (H1 : (LoggerEngine.add_engine e (PyStr lv) engine).1 = Ok tt)
    by (by rewrite add_engine_str).
  rewrite H1.
  set (ea := (LoggerEngine.add_engine e (PyStr lv) engine).2).
  assert (Hra : reachable ea) by (by apply reachable_add).
  destruct (add_engine_registers e lv engine) as (ca & la & Hca & Hla & Hin).
  fold ea in Hca.
  destruct (reachable_distinct ea Hra ca lv la Hca Hla) as [_ Hnd].
  apply list_elem_of_lookup in Hin. destruct Hin as [i Hi].
  rewrite (add_engine_str ea). f_equal.
  rewrite Hca. simpl. rewrite Hla.
  assert (Hh : has_class engine la = true).
  { apply has_class_true, list_elem_of_fmap. exists engine. split; [done|].
    apply list_elem_of_lookup. by exists i. }
  rewrite Hh, (swap_in_unique engine la i engine Hnd Hi eq_refl).
  rewrite (list_insert_id la i engine Hi), (insert_id ca lv la Hla).
  destruct ea as [q nc cf]. simpl in *. by subst cf.
Qed.

Lemma X8_add_engine_idempotent_witness :
  LoggerEngine.add_engine
    (LoggerEngine.add_engine
       (LoggerEngine.add_engine (built 0) (PyStr "ERROR") sinkA).2
       (PyStr "ERROR") (Sink "LoggerEngineStdout" 101)).2
    (PyStr "ERROR") (Sink "LoggerEngineStdout" 101)
  = (Ok tt,
     (LoggerEngine.add_engine
        (LoggerEngine.add_engine (built 0) (PyStr "ERROR") sinkA).2
        (PyStr "ERROR") (Sink "LoggerEngineStdout" 101)).2).
Proof.
  apply (X8_add_engine_idempotent
           (LoggerEngine.add_engine (built 0) (PyStr "ERROR") sinkA).2
           (PyStr "ERROR") (Sink "LoggerEngineStdout" 101)).
  apply reachable_add. apply (reachable_init empty_store _ _ (init_builds _)).
Defined.

(** ** More on the processor *)

Section ProcessorStart.

Variable c_name : string.

Lemma steps_when_failed e n : ∀ th s,
  at_point th = Failed e →
  ThLoggerProcessor.exec c_name (replicate n Step) (th, s) = (th, s).
Proof.
  induction n as [|n IH]; intros th s Hp; [reflexivity|].
  unfold ThLoggerProcessor.exec. cbn [replicate foldl].
  assert (H : ThLoggerProcessor.perform c_name Step (th, s) = (th, s)).
  { simpl. unfold ThLoggerProcessor.run_step. by rewrite Hp. }
  rewrite H. by apply IH.
Qed.

Lemma steps_when_returned n : ∀ th s,
  at_point th = Returned →
  ThLoggerProcessor.exec c_name (replicate n Step) (th, s) = (th, s).
Proof.
  induction n as [|n IH]; intros th s Hp; [reflexivity|].
  unfold ThLoggerProcessor.exec. cbn [replicate foldl].
  assert (H : ThLoggerProcessor.perform c_name Step (th, s) = (th, s)).
  { simpl. unfold ThLoggerProcessor.run_step. by rewrite Hp. }
  rewrite H. by apply IH.
Qed.

End ProcessorStart.

(** X9: [run] on a processor whose engine or client is not set fails
    with [ValueError] at its first statement, whatever the debug flag:
    it calls neither [send] nor [sleep], writes nothing to any queue or
    sink, and stays failed however long the thread is scheduled. *)
Theorem X9_run_needs_engine_and_client (c_name : string) (th : ThLoggerProcessor)
    (s : store) (n : nat) :
  at_point th = Idle →
  logger_engine th = None ∨ logger_client th = None →
  at_point (ThLoggerProcessor.exec c_name (replicate (S n) Step) (th, s)).1
  = Failed ValueError ∧
  calls (ThLoggerProcessor.exec c_name (replicate (S n) Step) (th, s)).1 = calls th ∧
  (ThLoggerProcessor.exec c_name (replicate (S n) Step) (th, s)).2 = s.
Proof.
  intros Hp Hm.
  assert (H : ThLoggerProcessor.perform c_name Step (th, s)
              = (ThLoggerProcessor.goto th (Failed ValueError) [], s)).
  { simpl. unfold ThLoggerProcessor.run_step. rewrite Hp.
    destruct Hm as [-> | ->]; [reflexivity|]. by destruct (logger_engine th). }
  unfold ThLoggerProcessor.exec. cbn [replicate foldl]. rewrite H.
  fold (ThLoggerProcessor.exec c_name (replicate n Step)
          (ThLoggerProcessor.goto th (Failed ValueError) [], s)).
  rewrite (steps_when_failed c_name ValueError) by reflexivity.
  simpl. by rewrite app_nil_r.
Qed.

Lemma X9_run_needs_engine_and_client_witness :
  at_point (ThLoggerProcessor.exec "ThLoggerProcessor" (replicate 3 Step)
              (ThLoggerProcessor.set_logger_engine (ThLoggerProcessor.init true) (built 0),
               after_init empty_store)).1
  = Failed ValueError ∧
  calls (ThLoggerProcessor.exec "ThLoggerProcessor" (replicate 3 Step)
           (ThLoggerProcessor.set_logger_engine (ThLoggerProcessor.init true) (built 0),
            after_init empty_store)).1 = [] ∧
  (ThLoggerProcessor.exec "ThLoggerProcessor" (replicate 3 Step)
     (ThLoggerProcessor.set_logger_engine (ThLoggerProcessor.init true) (built 0),
      after_init empty_store)).2 = after_init empty_store.
Proof.
  apply (X9_run_needs_engine_and_client "ThLoggerProcessor"
           (ThLoggerProcessor.set_logger_engine (ThLoggerProcessor.init true) (built 0))
           (after_init empty_store) 2); [reflexivity|].
  right. reflexivity.
Defined.

(** X10: the two setters of the processor do not commute.  Setting the
    engine on a processor that has a client always rebinds that client
    to the engine's queue, replacing a queue the client had; setting a
    client on a processor that has an engine binds the client to the
    engine's queue only when the client has no queue, and otherwise
    leaves it on its own queue. *)
Theorem X10_setters_binding (th : ThLoggerProcessor) (e : LoggerEngine) (c : LoggerClient) :
  logger_client
    (ThLoggerProcessor.set_logger_engine (ThLoggerProcessor.set_logger_client th c) e)
  = Some {| lc_name := lc_name c; logs_queue := Some (le_queue e) |} ∧
  logger_client
    (ThLoggerProcessor.set_logger_client (ThLoggerProcessor.set_logger_engine th e) c)
  = Some {| lc_name := lc_name c;
            logs_queue := Some (default (le_queue e) (logs_queue c)) |} ∧
  logger_engine
    (ThLoggerProcessor.set_logger_engine (ThLoggerProcessor.set_logger_client th c) e)
  = Some e ∧
  logger_engine
    (ThLoggerProcessor.set_logger_client (ThLoggerProcessor.set_logger_engine th e) c)
  = Some e.
Proof.
  split; [|split; [|split]]; try reflexivity.
  - simpl. by destruct (logger_engine th), (logs_queue c).
  - simpl. destruct c as [nm [q|]]; reflexivity.
Qed.

Section ProcessorLoop.

Variable c_name : string.

Lemma step_unstopped th s :
  unstopped th →
  unstopped (ThLoggerProcessor.run_step c_name th s).1 ∧
  ∃ extra, calls (ThLoggerProcessor.run_step c_name th s).1 = (calls th ++ extra)%list ∧
           FinalSend ∉ extra.
Proof.
  intros (Hs & Hl). unfold ThLoggerProcessor.run_step.
  destruct Hl as [[Hp|[Hp|Hp]]|[x Hp]]; rewrite Hp.
  - rewrite Hs. simpl. split.
    + split; [done|]. left. right. by left.
    + exists []. split; [done|]. apply not_elem_of_nil.
  - unfold ThLoggerProcessor.after.
    destruct (ThLoggerProcessor.engine_send th s) as [[[]|x] s']; simpl.
    + split; [split; [done|]; left; right; by right|].
      exists [LoopSend]. split; [done|].
      rewrite not_elem_of_cons. split; [done|apply not_elem_of_nil].
    + split; [split; [done|]; right; by eexists|].
      exists []. split; [done|]. apply not_elem_of_nil.
  - simpl. split.
    + split; [done|]. left. by left.
    + exists [Sleep]. split; [done|].
      rewrite not_elem_of_cons. split; [done|apply not_elem_of_nil].
  - simpl. split.
    + split; [done|]. right. by eexists.
    + exists []. split; [by rewrite app_nil_r|apply not_elem_of_nil].
Qed.

Lemma perform_unstopped ev th s :
  ev ≠ CallStop →
  unstopped th →
  unstopped (ThLoggerProcessor.perform c_name ev (th, s)).1 ∧
  ∃ extra, calls (ThLoggerProcessor.perform c_name ev (th, s)).1 = (calls th ++ extra)%list ∧
           FinalSend ∉ extra.
Proof.
  intros Hev Hl. destruct ev as [| |c m lvl|lvl engine]; simpl.
  - by apply step_unstopped.
  - done.
  - split; [done|]. exists []. split; [by rewrite app_nil_r|apply not_elem_of_nil].
  - destruct (logger_engine th) as [e|] eqn:He; simpl.
    + split; [exact Hl|].
      exists []. split; [by rewrite app_nil_r|apply not_elem_of_nil].
    + split; [done|]. exists []. split; [by rewrite app_nil_r|apply not_elem_of_nil].
Qed.

Lemma exec_unstopped evs : ∀ th s,
  Forall (fun ev => ev ≠ CallStop) evs →
  unstopped th →
  unstopped (ThLoggerProcessor.exec c_name evs (th, s)).1 ∧
  ∃ extra, calls (ThLoggerProcessor.exec c_name evs (th, s)).1 = (calls th ++ extra)%list ∧
           FinalSend ∉ extra.
Proof.
  induction evs as [|ev evs IH]; intros th s Hev Hl.
  - split; [done|]. exists []. split; [by rewrite app_nil_r|apply not_elem_of_nil].
  - apply Forall_cons in Hev as [Hev Hevs].
    unfold ThLoggerProcessor.exec. cbn [foldl].
    destruct (perform_unstopped ev th s Hev Hl) as (Hl' & x1 & Hc1 & Hn1).
    destruct (ThLoggerProcessor.perform c_name ev (th, s)) as [th' s'].
    simpl in Hl', Hc1.
    destruct (IH th' s' Hevs Hl') as (Hl'' & x2 & Hc2 & Hn2).
    split; [exact Hl''|]. exists (x1 ++ x2)%list. split.
    + unfold ThLoggerProcessor.exec in Hc2. rewrite Hc2, Hc1. by rewrite app_assoc.
    + rewrite elem_of_app. tauto.
Qed.

Lemma step_looping th s :
  looping th →
  quiet s →
  looping (ThLoggerProcessor.run_step c_name th s).1 ∧
  quiet (ThLoggerProcessor.run_step c_name th s).2.
Proof.
  intros (Hl & Hr & Hs) Hq. unfold ThLoggerProcessor.run_step.
  destruct Hl as [Hp|[Hp|Hp]]; rewrite Hp.
  - rewrite Hs. simpl. split; [|done]. split; [right; by left|]. by split.
  - destruct (engine_send_ok th s Hr Hq) as (s' & Hs' & Hq').
    rewrite (after_ok _ _ _ _ _ _ Hs'). simpl. split; [|done].
    split; [right; by right|]. by split.
  - simpl. split; [|done]. split; [by left|]. by split.
Qed.

Lemma perform_looping ev th s :
  ev ≠ CallStop →
  looping th →
  quiet s →
  looping (ThLoggerProcessor.perform c_name ev (th, s)).1 ∧
  quiet (ThLoggerProcessor.perform c_name ev (th, s)).2.
Proof.
  intros Hev Hl Hq. destruct ev as [| |c m lvl|lvl engine]; simpl.
  - by apply step_looping.
  - done.
  - split; [done|]. eapply quiet_same; [|exact Hq]. apply message_world.
  - destruct (logger_engine th) as [e|] eqn:He; simpl; [|done].
    split; [|done]. destruct Hl as (Hp & [_ Hc] & Hs). split; [done|]. split; [|done].
    split; [by eexists|done].
Qed.

Lemma exec_looping evs : ∀ th s,
  Forall (fun ev => ev ≠ CallStop) evs →
  looping th →
  quiet s →
  looping (ThLoggerProcessor.exec c_name evs (th, s)).1.
Proof.
  induction evs as [|ev evs IH]; intros th s Hev Hl Hq; [done|].
  apply Forall_cons in Hev as [Hev Hevs].
  unfold ThLoggerProcessor.exec. cbn [foldl].
  destruct (perform_looping ev th s Hev Hl Hq) as (Hl' & Hq').
  destruct (ThLoggerProcessor.perform c_name ev (th, s)) as [th' s'].
  by apply IH.
Qed.

End ProcessorLoop.

(** X11: [run] returns only through [stop()].  On a processor in its
    loop with the flag not set, whatever else happens (statements of
    [run], client messages, [add_engine] calls) as long as nobody
    calls [stop()], the flag is still not set, [run] has not returned
    and has made no final [send]: it is still in its loop, or the
    exception of a sink has ended it.  While no call of a sink raises
    it is still in its loop. *)
Theorem X11_run_ends_only_on_stop (c_name : string) (th : ThLoggerProcessor)
    (s : store) (evs : list event) :
  looping th →
  Forall (fun ev => ev ≠ CallStop) evs →
  stopped (ThLoggerProcessor.exec c_name evs (th, s)).1 = false ∧
  at_point (ThLoggerProcessor.exec c_name evs (th, s)).1 ≠ Returned ∧
  (in_loop (at_point (ThLoggerProcessor.exec c_name evs (th, s)).1) ∨
   ∃ x, at_point (ThLoggerProcessor.exec c_name evs (th, s)).1 = Failed x) ∧
  (∃ extra, calls (ThLoggerProcessor.exec c_name evs (th, s)).1 = (calls th ++ extra)%list ∧
            FinalSend ∉ extra) ∧
  (quiet s → in_loop (at_point (ThLoggerProcessor.exec c_name evs (th, s)).1)).
Proof.
  intros Hl Hev.
  assert (Hu : unstopped th) by (destruct Hl as (Hp & _ & Hs); split; [done|by left]).
  destruct (exec_unstopped c_name evs th s Hev Hu) as ((Hs & Hp) & Hx).
  split; [exact Hs|]. split; [|split; [exact Hp|split; [exact Hx|]]].
  - intros Hr. rewrite Hr in Hp.
    destruct Hp as [[H|[H|H]]|[x H]]; discriminate.
  - intros Hq. by destruct (exec_looping c_name evs th s Hev Hl Hq) as (Hp' & _).
Qed.

Lemma X11_run_ends_only_on_stop_witness :
  stopped (ThLoggerProcessor.exec "ThLoggerProcessor"
             [Step; Step; CallMessage unnamed_client (PyStr "a") (PyStr "INFO");
              Step; Step; CallAddEngine (PyStr "INFO") sinkA; Step]
             (demo_running, failing_store)).1 = false ∧
  at_point (ThLoggerProcessor.exec "ThLoggerProcessor"
              [Step; Step; CallMessage unnamed_client (PyStr "a") (PyStr "INFO");
               Step; Step; CallAddEngine (PyStr "INFO") sinkA; Step]
              (demo_running, failing_store)).1 ≠ Returned ∧
  ∃ extra,
    calls (ThLoggerProcessor.exec "ThLoggerProcessor"
             [Step; Step; CallMessage unnamed_client (PyStr "a") (PyStr "INFO");
              Step; Step; CallAddEngine (PyStr "INFO") sinkA; Step]
             (demo_running, failing_store)).1 = (calls demo_running ++ extra)%list ∧
    FinalSend ∉ extra.
Proof.
  assert (Hl : looping demo_running).
  { split; [right; left; reflexivity|]. split; [|reflexivity].
    split; [by eexists|]. eexists _, _, _. repeat split; reflexivity. }
  assert (Hev : Forall (fun ev => ev ≠ CallStop)
                  [Step; Step; CallMessage unnamed_client (PyStr "a") (PyStr "INFO");
                   Step; Step; CallAddEngine (PyStr "INFO") sinkA; Step])
    by (repeat constructor; discriminate).
  destruct (X11_run_ends_only_on_stop "ThLoggerProcessor" demo_running failing_store _ Hl Hev)
    as (H1 & H2 & _ & H4 & _).
  split; [exact H1|]. split; [exact H2|exact H4].
Defined.

(** ** Stopping *)

Lemma debug_message_entry c_name th c q nm word s :
  logger_client th = Some c →
  logs_queue c = Some q →
  render_name (lc_name c) = Ok nm →
  ThLoggerProcessor.debug_message th ("[" ++ c_name ++ "] " ++ word) s
  = (Ok tt, set_contents q (contents q s ++ [debug_entry c_name nm word]) s).
Proof.
  intros Hc Hq Hn. unfold ThLoggerProcessor.debug_message. rewrite Hc.
  unfold LoggerClient.message_debug. rewrite message_valid by in_keys.
  unfold decorated. simpl. by rewrite Hn, Hq.
Qed.

Section Shutdown.

Variable c_name : string.
Variable e : LoggerEngine.
Variable c : LoggerClient.
Variable qc : nat.
Variable nm : option string.
Hypothesis client_queue : logs_queue c = Some qc.
Hypothesis client_name : render_name (lc_name c) = Ok nm.

Lemma flushing_winding st : flushing e c st → winding_down st.1.
Proof.
  intros (He & Hc & Hs & Hp & _). split; [done|]. split; [|done].
  split; [by eexists|]. by exists c, qc, nm.
Qed.

Lemma owed_entry dbg word :
  dbg = true →
  deliveries e (if decide (qc = le_queue e) then [debug_entry c_name nm word] else [])
  = deliveries e (if dbg && bool_decide (logs_queue c = Some (le_queue e))
                  then [debug_entry c_name nm word] else []).
Proof.
  intros ->. rewrite client_queue. simpl.
  destruct (decide (qc = le_queue e)) as [->|Hne].
  - by rewrite bool_decide_eq_true_2.
  - rewrite bool_decide_eq_false_2; [done|]. intros H. by injection H.
Qed.

Lemma step_flushing th s :
  flushing e c (th, s) →
  quiet s →
  flushing e c (ThLoggerProcessor.run_step c_name th s) ∧
  quiet (ThLoggerProcessor.run_step c_name th s).2 ∧
  debug (ThLoggerProcessor.run_step c_name th s).1 = debug th ∧
  (backlog e (ThLoggerProcessor.run_step c_name th s).2
     ++ deliveries e (owed c_name (debug th) e c nm
                        (at_point (ThLoggerProcessor.run_step c_name th s).1)))%list
  = (backlog e s ++ deliveries e (owed c_name (debug th) e c nm (at_point th)))%list.
Proof.
  intros (He & Hc & Hs & Hp & Hq) Hquiet. simpl in He, Hc, Hs, Hp, Hq.
  unfold ThLoggerProcessor.run_step.
  destruct (at_point th) eqn:Ep; [done| | | | | | |done].
  - rewrite Hs. simpl. split; [|done]. by split; [|split; [|split; [|split]]].
  - unfold ThLoggerProcessor.after, ThLoggerProcessor.engine_send. rewrite He.
    destruct (backlog_send e s Hquiet) as (Hb & _ & He0).
    rewrite send_spec in * by exact Hquiet. simpl in *.
    split; [by split; [|split; [|split; [|split]]]|].
    split; [by apply quiet_add_output, quiet_drained|]. split; [done|].
    by rewrite Hb.
  - simpl. split; [|done]. by split; [|split; [|split; [|split]]].
  - destruct (debug th) eqn:Ed.
    + unfold ThLoggerProcessor.after.
      change ("[" ++ c_name ++ "] Stop.") with ("[" ++ c_name ++ "] " ++ "Stop.").
      rewrite (debug_message_entry c_name th c qc nm "Stop." s Hc client_queue client_name).
      simpl.
      split; [by split; [|split; [|split; [|split]]]|]. split; [done|]. split; [done|].
      rewrite backlog_append. unfold owed.
      rewrite (owed_entry true "Stop." eq_refl). simpl.
      destruct (bool_decide (logs_queue c = Some (le_queue e))); simpl;
        by rewrite ?app_nil_r.
    + simpl. split; [by split; [|split; [|split; [|split]]]|]. split; [done|].
      split; [done|]. reflexivity.
  - unfold ThLoggerProcessor.after, ThLoggerProcessor.engine_send. rewrite He.
    destruct (backlog_send e s Hquiet) as (Hb & _ & He0).
    rewrite send_spec in * by exact Hquiet. simpl in *.
    split; [split; [|split; [|split; [|split]]]; try done; intros _; exact He0|].
    split; [by apply quiet_add_output, quiet_drained|]. split; [done|].
    rewrite Hb. unfold owed. by destruct (_ && _).
  - simpl. split; [|split; [done|by rewrite Ep]].
    split; [|split; [|split; [|split]]]; try done; simpl.
    + by rewrite Ep.
    + intros _. by apply Hq.
Qed.

Lemma steps_flushing n : ∀ th s,
  flushing e c (th, s) →
  quiet s →
  flushing e c (ThLoggerProcessor.exec c_name (replicate n Step) (th, s)) ∧
  (backlog e (ThLoggerProcessor.exec c_name (replicate n Step) (th, s)).2
     ++ deliveries e (owed c_name (debug th) e c nm
          (at_point (ThLoggerProcessor.exec c_name (replicate n Step) (th, s)).1)))%list
  = (backlog e s ++ deliveries e (owed c_name (debug th) e c nm (at_point th)))%list.
Proof.
  induction n as [|n IH]; intros th s Hf Hquiet; [done|].
  unfold ThLoggerProcessor.exec. cbn [replicate foldl].
  change (ThLoggerProcessor.perform c_name Step (th, s))
    with (ThLoggerProcessor.run_step c_name th s).
  destruct (step_flushing th s Hf Hquiet) as (Hf' & Hquiet' & Hd & Hb).
  destruct (ThLoggerProcessor.run_step c_name th s) as [th' s'].
  simpl in Hquiet', Hd, Hb. destruct (IH th' s' Hf' Hquiet') as [Hf'' Hb'].
  unfold ThLoggerProcessor.exec in Hf'', Hb'.
  split; [exact Hf''|]. rewrite <- Hb, <- Hd. exact Hb'.
Qed.

Lemma steps_replicate n : ThLoggerProcessor.steps (replicate n Step) = n.
Proof. induction n as [|n IH]; simpl; congruence. Qed.

End Shutdown.

(** X12: while no call of a sink raises, stopping loses nothing that
    was queued.  On a processor in its loop whose client has a queue
    and a name that renders, with no other thread acting after
    [stop()], once [run] has executed five more statements it has
    returned, the engine's queue is empty, and the sinks have been
    handed, after what they had, every entry that was on that queue
    when [stop()] was called, in order, followed by the processor's own
    two debug entries when it is in debug mode and its client shares
    the engine's queue. *)
Theorem X12_stop_flushes_the_queue (c_name : string) (th : ThLoggerProcessor)
    (s : store) (e : LoggerEngine) (c : LoggerClient) (qc n : nat) (nm : option string) :
  in_loop (at_point th) →
  logger_engine th = Some e →
  logger_client th = Some c →
  logs_queue c = Some qc →
  render_name (lc_name c) = Ok nm →
  quiet s →
  (5 ≤ n)%nat →
  ∃ th1 s1,
    ThLoggerProcessor.stop c_name th s = (Ok tt, th1, s1) ∧
    at_point (ThLoggerProcessor.exec c_name (replicate n Step) (th1, s1)).1 = Returned ∧
    contents (le_queue e) (ThLoggerProcessor.exec c_name (replicate n Step) (th1, s1)).2 = [] ∧
    output (ThLoggerProcessor.exec c_name (replicate n Step) (th1, s1)).2
    = (output s ++ deliveries e (contents (le_queue e) s ++ farewell c_name (debug th) e c nm))%list.
Proof.
  intros Hl He Hc Hq Hnm Hquiet Hn.
  set (th1 := {| logger_engine := logger_engine th; logger_client := logger_client th;
                 debug := debug th; stopped := true;
                 at_point := at_point th; calls := calls th |}).
  assert (Hstop : ∃ s1,
    ThLoggerProcessor.stop c_name th s = (Ok tt, th1, s1) ∧
    quiet s1 ∧
    backlog e s1
    = (backlog e s ++ deliveries e
         (if debug th && bool_decide (logs_queue c = Some (le_queue e))
          then [debug_entry c_name nm "stopping..."] else []))%list).
  { unfold ThLoggerProcessor.stop. destruct (debug th) eqn:Ed.
    - change ("[" ++ c_name ++ "] stopping...") with ("[" ++ c_name ++ "] " ++ "stopping...").
      rewrite (debug_message_entry c_name th c qc nm "stopping..." s Hc Hq Hnm).
      eexists. split; [reflexivity|]. split; [done|].
      rewrite backlog_append. by rewrite (owed_entry c_name e c qc nm Hq true _ eq_refl).
    - exists s. split; [reflexivity|]. split; [done|]. simpl. by rewrite app_nil_r. }
  destruct Hstop as (s1 & Hs1 & Hq1 & Hb1).
  exists th1, s1. split; [exact Hs1|].
  assert (Hf : flushing e c (th1, s1)).
  { split; [done|]. split; [done|]. split; [done|]. simpl.
    destruct Hl as [->|[->| ->]]; by split. }
  destruct (steps_flushing c_name e c qc nm Hq Hnm n th1 s1 Hf Hq1) as [Hf' Hb].
  destruct (exec_winding c_name (replicate n Step) th1 s1
              (flushing_winding e c qc nm Hq Hnm _ Hf) Hq1) as (_ & _ & _ & Hd).
  rewrite steps_replicate in Hd.
  assert (Hp : at_point (ThLoggerProcessor.exec c_name (replicate n Step) (th1, s1)).1
               = Returned).
  { apply distance_zero; [apply Hf'|]. rewrite Hd. simpl.
    destruct Hl as [->|[->| ->]]; simpl; lia. }
  destruct Hf' as (_ & _ & _ & _ & Hempty). specialize (Hempty Hp).
  split; [exact Hp|]. split; [exact Hempty|].
  rewrite Hp, Hb1 in Hb. unfold backlog at 1 in Hb. rewrite Hempty in Hb.
  change (at_point th1) with (at_point th) in Hb.
  change (debug th1) with (debug th) in Hb.
  unfold owed, farewell in *.
  rewrite deliveries_app. unfold backlog in Hb.
  destruct (debug th && bool_decide (logs_queue c = Some (le_queue e))).
  - destruct Hl as [Hl|[Hl|Hl]]; rewrite Hl in Hb; simpl in Hb;
      rewrite !app_nil_r in Hb; rewrite Hb; simpl;
      rewrite !app_nil_r, <- !app_assoc; reflexivity.
  - simpl in Hb. rewrite !app_nil_r in Hb. rewrite Hb. simpl.
    by rewrite !app_nil_r.
Qed.

Lemma X12_stop_flushes_the_queue_witness :
  quiet (set_contents 0 [("ERROR", PyStr "disk full")] (after_init empty_store)) ∧
  ∃ th1 s1,
    ThLoggerProcessor.stop "ThLoggerProcessor" demo_running
      (set_contents 0 [("ERROR", PyStr "disk full")] (after_init empty_store))
    = (Ok tt, th1, s1) ∧
    at_point (ThLoggerProcessor.exec "ThLoggerProcessor" (replicate 6 Step) (th1, s1)).1
    = Returned ∧
    contents 0 (ThLoggerProcessor.exec "ThLoggerProcessor" (replicate 6 Step) (th1, s1)).2 = [] ∧
    output (ThLoggerProcessor.exec "ThLoggerProcessor" (replicate 6 Step) (th1, s1)).2
    = [(Sink "LoggerEngineStdout" 5, PyStr "disk full");
       (Sink "LoggerEngineStderr" 6, PyStr "disk full");
       (Sink "LoggerEngineStderr" 4, PyStr "[db] [ThLoggerProcessor] stopping...");
       (Sink "LoggerEngineStderr" 4, PyStr "[db] [ThLoggerProcessor] Stop.")].
Proof.
  assert (Hl : in_loop (at_point demo_running)) by (right; left; reflexivity).
  assert (Hn : (5 ≤ 6)%nat) by lia.
  assert (Hq : quiet (set_contents 0 [("ERROR", PyStr "disk full")] (after_init empty_store)))
    by (intros k x m; reflexivity).
  split; [exact Hq|].
  exact (X12_stop_flushes_the_queue "ThLoggerProcessor" demo_running
           (set_contents 0 [("ERROR", PyStr "disk full")] (after_init empty_store))
           (built 0) {| lc_name := PyStr "db"; logs_queue := Some 0 |} 0 6 (Some "db")
           Hl eq_refl eq_refl eq_refl eq_refl Hq Hn).
Defined.


(** X13: while no call of a sink raises, no entry is dropped,
    duplicated or overtaken.  Take what has been delivered so far
    followed by what draining the engine's queue now would deliver;
    through any schedule of processor statements, [stop()] calls and
    client messages (the routing table being left alone), that
    sequence only grows at its end. *)
Theorem X13_backlog_only_grows (c_name : string) (th : ThLoggerProcessor) (s : store)
    (e : LoggerEngine) (evs : list event) :
  logger_engine th = Some e →
  quiet s →
  Forall keeps_routes evs →
  backlog e s `prefix_of` backlog e (ThLoggerProcessor.exec c_name evs (th, s)).2.
Proof.
  intros He Hq Hev. destruct (exec_backlog c_name e evs th s He Hq Hev) as [ext Hext].
  by exists ext.
Qed.

Lemma X13_backlog_only_grows_witness :
  quiet (set_contents 0 [("ERROR", PyStr "disk full")] (after_init empty_store)) ∧
  backlog (built 0) (set_contents 0 [("ERROR", PyStr "disk full")] (after_init empty_store))
  `prefix_of`
  backlog (built 0)
    (ThLoggerProcessor.exec "ThLoggerProcessor"
       [Step; CallMessage unnamed_client (PyStr "late") (PyStr "INFO"); CallStop; Step; Step]
       (demo_running,
        set_contents 0 [("ERROR", PyStr "disk full")] (after_init empty_store))).2.
Proof.
  assert (Hq : quiet (set_contents 0 [("ERROR", PyStr "disk full")] (after_init empty_store)))
    by (intros k x m; reflexivity).
  split; [exact Hq|].
  apply X13_backlog_only_grows; [reflexivity|exact Hq|].
  repeat constructor; intros ? ?; discriminate.
Defined.

(** ** Formatters *)

Lemma string_app_nil_r (a : string) : a ++ EmptyString = a.
Proof.
  induction a as [|c a IH]; [reflexivity|].
  change (String c (a ++ EmptyString) = String c a). by rewrite IH.
Qed.

Lemma string_app_assoc (a b c : string) : (a ++ b) ++ c = a ++ b ++ c.
Proof.
  induction a as [|x a IH]; [reflexivity|].
  change (String x ((a ++ b) ++ c) = String x (a ++ b ++ c)). by rewrite IH.
Qed.

Lemma format_message (m : string) :
  BLogFormatter.str_format (BLogFormatter.kw_message m) BLogFormatter.Literal "{message}"
  = Some (Ok m).
Proof.
  transitivity (Some (Ok (m ++ EmptyString)) : option (outcome string)); [reflexivity|].
  by rewrite string_app_nil_r.
Qed.

Lemma format_name_message (n m : string) :
  BLogFormatter.str_format (BLogFormatter.kw_name_message n m) BLogFormatter.Literal
    "[{name}]: {message}"
  = Some (Ok ("[" ++ n ++ "]: " ++ m)).
Proof.
  transitivity (Some (Ok ("[" ++ n ++ "]: " ++ m ++ EmptyString)) : option (outcome string));
    [reflexivity|].
  by rewrite string_app_nil_r.
Qed.

Lemma format_loop_plain now message name out :
  BLogFormatter.format_loop now message name out formatters.plain
  = Some (match rendered_plain message name with
          | Ok p => Ok (out ++ p)
          | Raise e => Raise e
          end).
Proof.
  unfold formatters.plain, rendered_plain.
  cbn [BLogFormatter.format_loop BLogFormatter.format_item].
  change (BLogFormatter.find "name" "{message}") with (-1)%Z.
  change (BLogFormatter.find "name" "[{name}]: {message}") with 2%Z.
  destruct (is_not_none name) eqn:Hn.
  - cbn [negb Z.ltb Z.compare Z.eqb].
    assert (Hname : match name with PyNone => False | _ => True end)
      by (by destruct name).
    destruct (Py.str name) as [n|x] eqn:En; [|by destruct name].
    destruct (Py.str message) as [m|x] eqn:Em; [|by destruct name].
    rewrite format_name_message. by destruct name.
  - destruct name; try discriminate Hn.
    cbn [negb Z.ltb Z.compare Z.eqb Pos.eqb].
    destruct (Py.str message) as [m|x] eqn:Em; [|done].
    by rewrite format_message.
Qed.

(** X14: the plain formatter [LogFormatterNull] renders a message with
    no name as the message's text alone, and with any name other than
    [None] (the empty string included) as ["[name]: message"]; values
    that are not strings are rendered by their textual form, the name
    before the message, and the exception of a rendering that fails is
    the exception of [format]. *)
Theorem X14_null_formatter (now : nat) (message name : value) :
  BLogFormatter.format now formatters.LogFormatterNull message name
  = Some (rendered_plain message name) ∧
  (∀ m, Py.str message = Ok m →
        BLogFormatter.format now formatters.LogFormatterNull message PyNone = Some (Ok m)) ∧
  (∀ n m, Py.str message = Ok m →
          BLogFormatter.format now formatters.LogFormatterNull message (PyStr n)
          = Some (Ok ("[" ++ n ++ "]: " ++ m))).
Proof.
  assert (H : ∀ name', BLogFormatter.format now formatters.LogFormatterNull message name'
                       = Some (rendered_plain message name')).
  { intros name'. unfold BLogFormatter.format, formatters.LogFormatterNull.
    rewrite format_loop_plain. by destruct (rendered_plain message name'). }
  split; [apply H|]. split.
  - intros m Hm. rewrite H. unfold rendered_plain. by rewrite Hm.
  - intros n m Hm. rewrite H. unfold rendered_plain. cbn [Py.str]. by rewrite Hm.
Qed.

Lemma format_loop_callable now message name out f forms :
  BLogFormatter.format_loop now message name out (BLogFormatter.Callable f :: forms)
  = match f now with
    | Raise e => Some (Raise e)
    | Ok v =>
        match Py.str v with
        | Raise e => Some (Raise e)
        | Ok t => BLogFormatter.format_loop now message name (out ++ t ++ " ") forms
        end
    end.
Proof.
  cbn [BLogFormatter.format_loop BLogFormatter.format_item].
  destruct (f now) as [v|x]; [|reflexivity]. by destruct (Py.str v).
Qed.

Lemma format_stamped now message name (f : nat → outcome value) (v : value) :
  f now = Ok v →
  BLogFormatter.format now (BLogFormatter.Callable f :: formatters.plain) message name
  = Some (stamped (Py.str v) (rendered_plain message name)).
Proof.
  intros Hf. unfold BLogFormatter.format. rewrite format_loop_callable, Hf.
  unfold stamped. destruct (Py.str v) as [t|x]; [|reflexivity].
  rewrite format_loop_plain. destruct (rendered_plain message name) as [p|x]; [|reflexivity].
  change (EmptyString ++ t ++ " ") with (t ++ " ").
  by rewrite string_app_assoc.
Qed.

(** X15: each of the three stamped formatters renders the result of its
    clock call, one space, and then exactly what the plain formatter
    renders: the timestamp formatter stamps with the integer clock
    value, the other two with [strftime] of their pattern.  The stamp
    is rendered first, and the exception of a rendering that fails is
    the exception of [format]. *)
Theorem X15_stamped_formatters (strftime : string → nat → string) (now : nat)
    (message name : value) :
  BLogFormatter.format now (formatters.LogFormatterDateTime strftime) message name
  = Some (stamped (Ok (strftime "%Y-%m-%d %H:%M:%S" now)) (rendered_plain message name)) ∧
  BLogFormatter.format now (formatters.LogFormatterTime strftime) message name
  = Some (stamped (Ok (strftime "%H:%M:%S" now)) (rendered_plain message name)) ∧
  BLogFormatter.format now formatters.LogFormatterTimestamp message name
  = Some (stamped (Py.str (PyInt (Z.of_nat now))) (rendered_plain message name)).
Proof.
  split; [|split].
  - exact (format_stamped now message name
             (fun now => Ok (PyStr (strftime "%Y-%m-%d %H:%M:%S" now))) _ eq_refl).
  - exact (format_stamped now message name
             (fun now => Ok (PyStr (strftime "%H:%M:%S" now))) _ eq_refl).
  - exact (format_stamped now message name
             (fun now => Ok (PyInt (Z.of_nat now))) _ eq_refl).
Qed.

(** The formatters evaluated: a stamped line with a name, and a format
    string with a lone brace, on which [str.format] raises. *)
Example format_demo :
  BLogFormatter.format 1700 formatters.LogFormatterTimestamp
    (PyStr "ready") (PyStr "db")
  = Some (Ok "1700 [db]: ready") ∧
  BLogFormatter.format 0 [BLogFormatter.Str "{message"] (PyStr "ready") PyNone
  = Some (Raise ValueError) ∧
  BLogFormatter.format 0 [BLogFormatter.Str "{level}: {message}"] (PyStr "ready") PyNone
  = Some (Raise KeyError).
Proof. vm_compute. repeat split; reflexivity. Qed.

(** ** Level tables *)

(** X17: the syslog level table and the key table agree: a string has
    an entry in [SysLogKeys.level_keys] exactly when it is one of the
    eight [LogsLevelKeys.keys], whatever the values of the platform's
    constants. *)
Theorem X17_level_tables_agree (syslog : syslog_levels) (k : string) :
  is_Some (SysLogKeys.level_keys syslog !! k) ↔ k ∈ LogsLevelKeys.keys.
Proof.
  unfold SysLogKeys.level_keys, LogsLevelKeys.keys.
  rewrite !lookup_insert_is_Some, lookup_empty, !elem_of_cons, elem_of_nil.
  unfold LogsLevelKeys.ALERT, LogsLevelKeys.CRITICAL, LogsLevelKeys.DEBUG,
    LogsLevelKeys.EMERGENCY, LogsLevelKeys.ERROR, LogsLevelKeys.INFO,
    LogsLevelKeys.NOTICE, LogsLevelKeys.WARNING.
  split.
  - intros H. repeat (destruct H as [H|[_ H]]; [subst; tauto|]).
    by destruct H.
  - intros H. repeat (destruct H as [H|H]; [subst k|]); try done;
      repeat (first [left; reflexivity | right; split; [discriminate|]]).
Qed.

(** ** The client's name *)

(** X18: [LoggerClient(queue, name)] raises [TypeError] exactly when
    the name is a non-string with a true truth value; [None], every
    string and every false non-string (zero, [False], the empty list)
    are accepted.  A client so made is bound exactly when a queue was
    given; its name always renders, and every name other than [None],
    also the empty string, becomes the prefix ["[name] "] of the texts
    it enqueues; a message whose rendering raises is not enqueued. *)
Theorem X18_client_name (queue : option nat) (name m : value) (lvl : string) (s : store) :
  lvl ∈ LogsLevelKeys.keys →
  LoggerClient.init queue name
  = (if truthy name && negb (is_str name) then Raise TypeError
     else Ok {| lc_name := name; logs_queue := queue |}) ∧
  ∀ c q, LoggerClient.init queue name = Ok c → queue = Some q →
    ∃ n, render_name name = Ok n ∧
         LoggerClient.message c m (PyStr lvl) s
         = match Py.str m with
           | Ok t => (Ok tt, set_contents q (contents q s ++ [(lvl, PyStr (prefixed n t))]) s)
           | Raise e => (Raise e, s)
           end.
Proof.
  intros Hl.
  assert (Hi : LoggerClient.init queue name
    = (if truthy name && negb (is_str name) then Raise TypeError
       else Ok {| lc_name := name; logs_queue := queue |})).
  { unfold LoggerClient.init, LoggerClient.set_name.
    destruct (truthy name && negb (is_str name)); [reflexivity|].
    by destruct queue. }
  split; [exact Hi|]. intros c q Hc Hq. rewrite Hi in Hc.
  destruct (truthy name && negb (is_str name)) eqn:Hn; [discriminate|].
  destruct (accepted_name_renders name Hn) as [n Hr].
  exists n. split; [exact Hr|].
  injection Hc as <-. rewrite (message_valid _ _ _ _ Hl). simpl.
  unfold decorated. destruct (Py.str m) as [t|x]; [|reflexivity].
  by rewrite Hr, Hq.
Qed.

Lemma X18_client_name_witness :
  LoggerClient.init (Some 0) (PyInt 0)
  = Ok {| lc_name := PyInt 0; logs_queue := Some 0 |} ∧
  LoggerClient.init (Some 0) (PyInt 7) = Raise TypeError ∧
  LoggerClient.message {| lc_name := PyStr EmptyString; logs_queue := Some 0 |}
    (PyStr "ready") (PyStr "INFO") empty_store
  = (Ok tt, set_contents 0 (contents 0 empty_store ++ [("INFO", PyStr "[] ready")]) empty_store).
Proof.
  assert (H : "INFO" ∈ LogsLevelKeys.keys) by in_keys.
  destruct (X18_client_name (Some 0) (PyInt 0) (PyStr "x") "INFO" empty_store H) as [H0 _].
  destruct (X18_client_name (Some 0) (PyInt 7) (PyStr "x") "INFO" empty_store H) as [H7 _].
  destruct (X18_client_name (Some 0) (PyStr EmptyString) (PyStr "ready") "INFO" empty_store H)
    as [_ He].
  split; [exact H0|]. split; [exact H7|].
  destruct (He _ 0 eq_refl eq_refl) as (n & Hn & Hm).
  injection Hn as <-. exact Hm.
Defined.

(** ** From the client to the sinks *)

(** X19: while no call of a sink raises, a message that renders, sent
    through a client bound to an engine's queue and then drained,
    reaches, after whatever the queue already held, exactly the sinks
    resolved for its level, each once and in registration order, with
    the client's decorated text; the queue is left empty. *)
Theorem X19_message_reaches_sinks (c : LoggerClient) (e : LoggerEngine) (m v : value)
    (lvl : string) (s : store) :
  lvl ∈ LogsLevelKeys.keys →
  logs_queue c = Some (le_queue e) →
  decorated (lc_name c) m = Ok v →
  quiet s →
  ∃ s',
    (LoggerClient.message c m (PyStr lvl) ;;; LoggerEngine.send e) s = (Ok tt, s') ∧
    output s'
    = (output s ++ deliveries e (contents (le_queue e) s)
       ++ map (fun x => (x, v)) (routed e lvl))%list ∧
    contents (le_queue e) s' = [].
Proof.
  intros Hl Hq Hv Hquiet. unfold bind. rewrite (message_valid _ _ _ _ Hl), Hv, Hq.
  eexists. split; [apply send_spec; by apply quiet_set_contents|].
  split; [|apply contents_drained].
  rewrite contents_set_contents, deliveries_app. simpl. rewrite app_nil_r.
  unfold drained. rewrite contents_set_contents.
  destruct (contents (le_queue e) s); reflexivity.
Qed.

Lemma X19_message_reaches_sinks_witness :
  quiet (after_init empty_store) ∧
  ∃ s',
    (LoggerClient.message {| lc_name := PyStr "db"; logs_queue := Some 0 |}
       (PyStr "ready") (PyStr "INFO") ;;; LoggerEngine.send (built 0)) (after_init empty_store)
    = (Ok tt, s') ∧
    output s' = [(Sink "LoggerEngineStdout" 1, PyStr "[db] ready")] ∧
    contents 0 s' = [].
Proof.
  assert (H : "INFO" ∈ LogsLevelKeys.keys) by in_keys.
  assert (Hq : quiet (after_init empty_store)) by (intros k x m; reflexivity).
  split; [exact Hq|].
  exact (X19_message_reaches_sinks {| lc_name := PyStr "db"; logs_queue := Some 0 |}
           (built 0) (PyStr "ready") (PyStr "[db] ready") "INFO" (after_init empty_store)
           H eq_refl eq_refl Hq).
Defined.

(** ** The shape of a run *)

Lemma turns_snoc k : (turns k ++ [LoopSend; Sleep])%list = turns (S k).
Proof.
  induction k as [|k IH]; [reflexivity|].
  simpl. simpl in IH. by rewrite IH.
Qed.

Section Shape.

Variable c_name : string.

Lemma goto_shaped th p cs k :
  (calls th ++ cs)%list = (turns k ++ started p)%list →
  well_shaped (ThLoggerProcessor.goto th p cs).
Proof. intros H. by exists k. Qed.

Lemma after_shaped th m p cs s k :
  (calls th ++ cs)%list = (turns k ++ started p)%list →
  (∃ e, calls th = turns e) →
  well_shaped (ThLoggerProcessor.after th m p cs s).1.
Proof.
  intros H [k' Hk']. unfold ThLoggerProcessor.after.
  destruct (m s) as [[[]|e] s']; simpl.
  - by exists k.
  - exists k'. simpl. by rewrite !app_nil_r.
Qed.

Lemma step_shaped th s :
  well_shaped th → well_shaped (ThLoggerProcessor.run_step c_name th s).1.
Proof.
  intros [k Hk]. unfold ThLoggerProcessor.run_step.
  destruct (at_point th) eqn:Hp; simpl in Hk; rewrite ?app_nil_r in Hk.
  - assert (Hfail : ∀ e, well_shaped (ThLoggerProcessor.goto th (Failed e) [])).
    { intros e. exists k. simpl. by rewrite Hk, !app_nil_r. }
    destruct (logger_engine th); [|apply Hfail].
    destruct (logger_client th); [|apply Hfail].
    destruct (debug th).
    + apply (after_shaped _ _ _ _ _ k); [|by exists k]. simpl. by rewrite Hk.
    + exists k. simpl. by rewrite Hk.
  - destruct (negb (stopped th)); exists k; simpl; by rewrite Hk.
  - apply (after_shaped _ _ _ _ _ k); [|by exists k]. simpl. by rewrite Hk.
  - exists (S k). simpl. rewrite Hk, <- app_assoc. simpl.
    rewrite app_nil_r. apply turns_snoc.
  - destruct (debug th).
    + apply (after_shaped _ _ _ _ _ k); [|by exists k]. simpl. by rewrite Hk.
    + exists k. simpl. by rewrite Hk.
  - apply (after_shaped _ _ _ _ _ k); [|by exists k]. simpl. by rewrite Hk.
  - exists k. simpl. by rewrite Hp.
  - exists k. simpl. by rewrite Hp, Hk, app_nil_r.
Qed.

Lemma perform_shaped ev th s :
  well_shaped th → well_shaped (ThLoggerProcessor.perform c_name ev (th, s)).1.
Proof.
  intros Hw. destruct ev as [| |c m lvl|lvl engine]; simpl.
  - by apply step_shaped.
  - unfold ThLoggerProcessor.stop. destruct (debug th); [|exact Hw].
    by destruct (ThLoggerProcessor.debug_message th _ s) as [[[]|] s'].
  - exact Hw.
  - by destruct (logger_engine th).
Qed.

Lemma exec_shaped evs : ∀ th s,
  well_shaped th → well_shaped (ThLoggerProcessor.exec c_name evs (th, s)).1.
Proof.
  induction evs as [|ev evs IH]; intros th s Hw; [exact Hw|].
  unfold ThLoggerProcessor.exec. cbn [foldl].
  pose proof (perform_shaped ev th s Hw) as H.
  destruct (ThLoggerProcessor.perform c_name ev (th, s)) as [th' s'].
  by apply IH.
Qed.

End Shape.

(** X20: the calls of [run] always have the same shape.  From a new
    processor, through any schedule of statements, [stop()] calls,
    client messages and [add_engine] calls, what [run] has called so far
    is a number of complete turns, each a [send] followed by a [sleep],
    then the [send] of a turn in progress when it stands before the
    [sleep], or one final [send] when it has returned, and nothing else:
    no two drains without a sleep between them inside the loop, and
    never a second final [send]. *)
Theorem X20_turns_then_final_send (c_name : string) (th : ThLoggerProcessor)
    (s : store) (evs : list event) :
  at_point th = Idle →
  calls th = [] →
  ∃ k, calls (ThLoggerProcessor.exec c_name evs (th, s)).1
       = (turns k
          ++ started (at_point (ThLoggerProcessor.exec c_name evs (th, s)).1))%list.
Proof.
  intros Hp Hc. apply exec_shaped. exists 0. by rewrite Hp, Hc.
Qed.

Lemma X20_turns_then_final_send_witness :
  ∃ k, calls (ThLoggerProcessor.exec "ThLoggerProcessor"
                [Step; Step; Step; Step; Step; Step; CallStop; Step; Step; Step; Step; Step]
                (demo_processor, after_init empty_store)).1
       = (turns k
          ++ started (at_point (ThLoggerProcessor.exec "ThLoggerProcessor"
                [Step; Step; Step; Step; Step; Step; CallStop; Step; Step; Step; Step; Step]
                (demo_processor, after_init empty_store)).1))%list.
Proof.
  apply X20_turns_then_final_send; reflexivity.
Defined.
